(** * ofxParameterTwister: a shallow embedding of the Midi Fighter Twister
      binding layer, and the properties of its wire codec, encoder state
      machine, parameter bindings and inbound routing loop.

    The embedding follows the implementation file (the [Encoder] struct and
    the [ofxParameterTwisterImpl] class).  Machine integers are [Z] with the
    wrap-around written out; [std::array<Encoder,16>] is a list read with
    [!!] and written with [<[ i := e ]>]; a reference [Encoder&] is the index
    of the encoder in [mEncoders]; a reference [ofParameter<T>&] is the index
    of the parameter object in a store of externally owned parameters.
    Undefined behaviour of the C++ code (an access past the end of
    [mEncoders], a dangling parameter reference) is the result [Fault]. *)

From Stdlib Require Import ZArith List Bool Lia QArith Qround Qabs.
From stdpp Require Import base option list.

Local Open Scope Z_scope.

(** ** Machine integers *)

Definition uint8 (x : Z) : Z := x mod 256.
Definition uint16 (x : Z) : Z := x mod 65536.

(** [#define TW_MAX_ENCODER_VALUE (0x3FFF)] *)
Definition TW_MAX_ENCODER_VALUE : Z := 0x3FFF.

(** ** External arithmetic (openFrameworks [ofMap], [std::round], and the
       conversions between [float] and the integer types).

    These functions are not part of the repository.  The development is
    parametric in the type [float] and in them: every theorem holds for any
    implementation. *)

Class OfFloat := {
  (** the values of the C++ type [float] *)
  float : Type;
}.

Class OfMath {FT : OfFloat} := {
  (** [ofMap(v, mn, mx, 0, TW_MAX_ENCODER_VALUE, true)] converted to an
      integer, for a [float] parameter. *)
  ofMap_float_to_hw : float -> float -> float -> Z;
  (** [ofMap(h, 0, TW_MAX_ENCODER_VALUE, mn, mx, true)]. *)
  ofMap_hw_to_float : Z -> float -> float -> float;
  (** The same two maps for an [int] parameter (its value, minimum and
      maximum are converted to [float], the result back to [int]). *)
  ofMap_int_to_hw : Z -> Z -> Z -> Z;
  ofMap_hw_to_int : Z -> Z -> Z -> Z;
  (** [std::round(ofMap(x, 0.f, 1.f, lo, hi, true))] converted to an integer. *)
  ofMap_round : float -> Z -> Z -> Z;
}.

(** ** Data model *)

(** [vector<unsigned char>] handed to [RtMidiOut::sendMessage]. *)
Definition Frame := list Z.

Record MidiCCMessage := mkMsg {
  command_channel : Z;
  controller : Z;
  value : Z;
}.

Definition getCommand (m : MidiCCMessage) : Z := Z.shiftr (command_channel m) 4.
Definition getChannel (m : MidiCCMessage) : Z := Z.land (command_channel m) 0x0F.

(** [ofxParameterTwister::Animation] *)
Inductive Animation := NONE | STROBE | PULSE | RAINBOW.

(** A parameter reference is the index of the object in the store. *)
Abbreviation ParamId := nat (only parsing).

(** An [ofEventListener] owns a token: the parameter whose event it is
    registered with, and the identifier of the registered function. *)
Abbreviation Token := (nat * nat)%type (only parsing).

(** The result of running a piece of the code: a value, or undefined
    behaviour. *)
Inductive Res (A : Type) :=
| Ok (a : A)
| Fault.
Arguments Ok {A} a.
Arguments Fault {A}.

Section Model.
Context {FT : OfFloat} {OM : OfMath}.

(** The closures handed to [ofParameter::newListener].  Each captures the
    encoder by reference (its slot) and, for the numeric kinds, the bounds. *)
Inductive Listener :=
| RotaryFloatL (slot : nat) (pMin pMax : float)
| RotaryIntL (slot : nat) (pMin pMax : Z)
| SwitchL (slot : nat).

(** The closures stored in [Encoder::updateRotaryParam]. *)
Inductive RotaryHandler :=
| RotaryFloatH (p : ParamId) (pMin pMax : float)
| RotaryIntH (p : ParamId) (pMin pMax : Z).

(** The closure stored in [Encoder::updateSwitchParam] captures [&param_]. *)
Inductive SwitchHandler :=
| SwitchBoolH (p : ParamId).

(** The externally owned parameter objects: [ofParameter<float>],
    [ofParameter<int>], [ofParameter<bool>], or a parameter of any other
    type (which no [dynamic_pointer_cast] of [setParams] matches). *)
Inductive ParamValue :=
| PFloat (v mn mx : float)
| PInt (v mn mx : Z)
| PBool (b : bool)
| POther.

Record Param := mkParam {
  pval : ParamValue;
  (** the functions registered with the parameter's change event, in
      subscription order, each with its identifier *)
  pevent : list (nat * Listener);
}.

Record Encoder := mkEncoder {
  mMidiOut : bool;   (* [mMidiOut != nullptr] *)
  pos : Z;
  rotaryEnabled : bool;
  switchEnabled : bool;
  mELSwitchParamChange : option Token;
  mELRotaryParamChange : option Token;
  updateSwitchParam : option SwitchHandler;
  updateRotaryParam : option RotaryHandler;
}.

(** What the code does to the outside world: frames handed to
    [mMidiOut->sendMessage], and calls of [param_.set]. *)
Inductive Event :=
| Sent (f : Frame)
| ParamSet (p : ParamId) (v : ParamValue).

Record Twister := mkTwister {
  mChannelMidiIn : list MidiCCMessage;
  mEncoders : list Encoder;
  mHighResVelLowByte : Z;
  params : list Param;
  nextToken : nat;
  trace : list Event;
}.

(** State transformers that may hit undefined behaviour. *)
Definition M := Twister -> Res Twister.

Definition seqM (a b : M) : M :=
  fun s => match a s with Ok s1 => b s1 | Fault => Fault end.

Definition skip : M := fun s => Ok s.

(** ** Field updates *)

Definition set_rotaryEnabled (b : bool) (e : Encoder) : Encoder :=
  mkEncoder (mMidiOut e) (pos e) b (switchEnabled e)
            (mELSwitchParamChange e) (mELRotaryParamChange e)
            (updateSwitchParam e) (updateRotaryParam e).

Definition set_switchEnabled (b : bool) (e : Encoder) : Encoder :=
  mkEncoder (mMidiOut e) (pos e) (rotaryEnabled e) b
            (mELSwitchParamChange e) (mELRotaryParamChange e)
            (updateSwitchParam e) (updateRotaryParam e).

Definition set_mELSwitchParamChange (t : option Token) (e : Encoder) : Encoder :=
  mkEncoder (mMidiOut e) (pos e) (rotaryEnabled e) (switchEnabled e)
            t (mELRotaryParamChange e)
            (updateSwitchParam e) (updateRotaryParam e).

Definition set_mELRotaryParamChange (t : option Token) (e : Encoder) : Encoder :=
  mkEncoder (mMidiOut e) (pos e) (rotaryEnabled e) (switchEnabled e)
            (mELSwitchParamChange e) t
            (updateSwitchParam e) (updateRotaryParam e).

Definition set_updateSwitchParam (h : option SwitchHandler) (e : Encoder) : Encoder :=
  mkEncoder (mMidiOut e) (pos e) (rotaryEnabled e) (switchEnabled e)
            (mELSwitchParamChange e) (mELRotaryParamChange e)
            h (updateRotaryParam e).

Definition set_updateRotaryParam (h : option RotaryHandler) (e : Encoder) : Encoder :=
  mkEncoder (mMidiOut e) (pos e) (rotaryEnabled e) (switchEnabled e)
            (mELSwitchParamChange e) (mELRotaryParamChange e)
            (updateSwitchParam e) h.

Definition set_mChannelMidiIn (q : list MidiCCMessage) (s : Twister) : Twister :=
  mkTwister q (mEncoders s) (mHighResVelLowByte s) (params s) (nextToken s) (trace s).

Definition set_mEncoders (es : list Encoder) (s : Twister) : Twister :=
  mkTwister (mChannelMidiIn s) es (mHighResVelLowByte s) (params s) (nextToken s) (trace s).

Definition set_mHighResVelLowByte (b : Z) (s : Twister) : Twister :=
  mkTwister (mChannelMidiIn s) (mEncoders s) b (params s) (nextToken s) (trace s).

Definition set_params (ps : list Param) (s : Twister) : Twister :=
  mkTwister (mChannelMidiIn s) (mEncoders s) (mHighResVelLowByte s) ps (nextToken s) (trace s).

Definition set_nextToken (n : nat) (s : Twister) : Twister :=
  mkTwister (mChannelMidiIn s) (mEncoders s) (mHighResVelLowByte s) (params s) n (trace s).

Definition log (evs : list Event) (s : Twister) : Twister :=
  mkTwister (mChannelMidiIn s) (mEncoders s) (mHighResVelLowByte s) (params s)
            (nextToken s) (trace s ++ evs).

(** ** [_midi_callback]: a three-byte message is decoded and queued, any
       other message is dropped. *)
Definition _midi_callback (message : list Z) (s : Twister) : Twister :=
  match message with
  | [b0; b1; b2] => set_mChannelMidiIn (mChannelMidiIn s ++ [mkMsg b0 b1 b2]) s
  | _ => s
  end.

(** ** [Encoder] member functions

    Each returns the frames it hands to [mMidiOut], and the new encoder
    where it changes one.  (Log output is not modelled.) *)

Definition setEncoderPhenotype (phenotype : Z) (e : Encoder) : list Frame :=
  if mMidiOut e then [[0xB4; pos e; phenotype]] else [].

Definition setRotaryState (enabled_ force_ : bool) (e : Encoder) : Encoder * list Frame :=
  if Bool.eqb (rotaryEnabled e) enabled_ && negb force_ then (e, [])
  else
    (set_rotaryEnabled enabled_ e,
     if enabled_ then setEncoderPhenotype 0 e
     else if negb (switchEnabled e) then setEncoderPhenotype 2 e
     else []).

Definition setSwitchState (enabled_ force_ : bool) (e : Encoder) : Encoder * list Frame :=
  if Bool.eqb (switchEnabled e) enabled_ && negb force_ then (e, [])
  else
    (set_switchEnabled enabled_ e,
     if enabled_ then setEncoderPhenotype 1 e
     else if negb (rotaryEnabled e) then setEncoderPhenotype 2 e
     else []).

Definition sendToSwitch (v_ : Z) (e : Encoder) : list Frame :=
  if mMidiOut e then [[0xB1; pos e; v_]] else [].

Definition sendToRotary (msb lsb : Z) (e : Encoder) : list Frame :=
  if mMidiOut e then [[0xB0; 0x58; lsb]; [0xB0; pos e; msb]] else [].

(** The two locals of [setRotaryValue] and [setSwitchValue]:
    [uint8_t msb = ((v_ >> 7) & 0x7F); uint8_t lsb = (v_ & 0x7F);] *)
Definition msb_of (v_ : Z) : Z := uint8 (Z.land (Z.shiftr v_ 7) 0x7F).
Definition lsb_of (v_ : Z) : Z := uint8 (Z.land v_ 0x7F).

Definition setRotaryValue (v_ : Z) (e : Encoder) : list Frame :=
  if negb (rotaryEnabled e) then []
  else sendToRotary (msb_of v_) (lsb_of v_) e.

Definition setSwitchValue (v_ : Z) (e : Encoder) : list Frame :=
  if negb (switchEnabled e) then []
  else sendToSwitch (msb_of v_) e.

Definition Encoder_setHueRGB (h_ : float) (e : Encoder) : list Frame :=
  if mMidiOut e then [[0xB1; pos e; uint8 (ofMap_round h_ 1 126)]] else [].

Definition Encoder_setBrightnessRotary (b_ : float) (e : Encoder) : list Frame :=
  if mMidiOut e then [[0xB2; pos e; uint8 (ofMap_round b_ 65 95)]] else [].

Definition Encoder_setBrightnessRGB (b_ : float) (e : Encoder) : list Frame :=
  if mMidiOut e then [[0xB2; pos e; uint8 (ofMap_round b_ 17 47)]] else [].

Definition setAnimation (v_ : Z) (e : Encoder) : list Frame :=
  if mMidiOut e then [[0xB2; pos e; v_]] else [].

(** ** The parameter side: subscriptions and [ofParameter::set] *)

(** [param_.newListener(l)]: the function is appended to the parameter's
    event under a fresh identifier; the token is returned. *)
Definition newListener (p : ParamId) (l : Listener) (s : Twister) : Token * Twister :=
  let id := nextToken s in
  ((p, id),
   set_nextToken (S id)
     (set_params (alter (fun q => mkParam (pval q) (pevent q ++ [(id, l)])) p (params s)) s)).

(** Destroying a token removes its function from the event.  A token whose
    parameter is gone releases nothing. *)
Definition release (t : option Token) (ps : list Param) : list Param :=
  match t with
  | Some (p, id) =>
      alter (fun q => mkParam (pval q) (filter (fun x => fst x <> id) (pevent q))) p ps
  | None => ps
  end.

(** What one registered function does when the parameter changes to [v]:
    it pushes the rescaled value to the encoder it captured. *)
Definition runListener (es : list Encoder) (v : ParamValue) (l : Listener)
  : option (list Frame) :=
  match l, v with
  | RotaryFloatL slot pMin pMax, PFloat v_ _ _ =>
      match es !! slot with
      | Some e => Some (setRotaryValue (uint16 (ofMap_float_to_hw v_ pMin pMax)) e)
      | None => None
      end
  | RotaryIntL slot pMin pMax, PInt v_ _ _ =>
      match es !! slot with
      | Some e => Some (setRotaryValue (uint16 (ofMap_int_to_hw v_ pMin pMax)) e)
      | None => None
      end
  | SwitchL slot, PBool v_ =>
      match es !! slot with
      | Some e => Some (setSwitchValue (if v_ then TW_MAX_ENCODER_VALUE else 0) e)
      | None => None
      end
  | _, _ => None
  end.

Fixpoint notify (ev : list (nat * Listener)) (v : ParamValue) : M :=
  match ev with
  | [] => skip
  | (_, l) :: ev' =>
      fun s =>
        match runListener (mEncoders s) v l with
        | Some fs => notify ev' v (log (map Sent fs) s)
        | None => Fault
        end
  end.

(** [param_.set(v)]: the value is stored, then every registered function is
    called with it, in subscription order. *)
Definition store (p : ParamId) (v : ParamValue) (ev : list (nat * Listener)) : M :=
  fun s =>
    notify ev v (log [ParamSet p v] (set_params (<[p := mkParam v ev]> (params s)) s)).

Definition ofParameter_set_float (p : ParamId) (x : float) : M :=
  fun s =>
    match params s !! p with
    | Some (mkParam (PFloat _ mn mx) ev) => store p (PFloat x mn mx) ev s
    | _ => Fault
    end.

Definition ofParameter_set_int (p : ParamId) (x : Z) : M :=
  fun s =>
    match params s !! p with
    | Some (mkParam (PInt _ mn mx) ev) => store p (PInt x mn mx) ev s
    | _ => Fault
    end.

Definition ofParameter_set_bool (p : ParamId) (x : bool) : M :=
  fun s =>
    match params s !! p with
    | Some (mkParam (PBool _) ev) => store p (PBool x) ev s
    | _ => Fault
    end.

(** ** The closures stored in the encoders *)

(** [uint16_t highRezVal = ((msb & 0x7F) << 7) | (lsb & 0x7F);] *)
Definition highRezVal (msb lsb : Z) : Z :=
  uint16 (Z.lor (Z.shiftl (Z.land msb 0x7F) 7) (Z.land lsb 0x7F)).

Definition callRotaryHandler (h : RotaryHandler) (msb lsb : Z) : M :=
  match h with
  | RotaryFloatH p pMin pMax =>
      ofParameter_set_float p (ofMap_hw_to_float (highRezVal msb lsb) pMin pMax)
  | RotaryIntH p pMin pMax =>
      ofParameter_set_int p (ofMap_hw_to_int (highRezVal msb lsb) pMin pMax)
  end.

Definition callSwitchHandler (h : SwitchHandler) (msb lsb : Z) : M :=
  match h with
  | SwitchBoolH p => ofParameter_set_bool p (if 63 <? msb then true else false)
  end.

(** ** Lifting the member functions to [mEncoders[i]] *)

Definition onEncoder (i : nat) (f : Encoder -> Encoder * list Frame) : M :=
  fun s =>
    match mEncoders s !! i with
    | Some e =>
        let (e', fs) := f e in
        Ok (log (map Sent fs) (set_mEncoders (<[i := e']> (mEncoders s)) s))
    | None => Fault
    end.

Definition sendFrom (i : nat) (f : Encoder -> list Frame) : M :=
  fun s =>
    match mEncoders s !! i with
    | Some e => Ok (log (map Sent (f e)) s)
    | None => Fault
    end.

(** [encoder_.mELRotaryParamChange.unsubscribe()] *)
Definition unsubscribeRotary (i : nat) : M :=
  fun s =>
    match mEncoders s !! i with
    | Some e =>
        Ok (set_params (release (mELRotaryParamChange e) (params s))
              (set_mEncoders (<[i := set_mELRotaryParamChange None e]> (mEncoders s)) s))
    | None => Fault
    end.

Definition unsubscribeSwitch (i : nat) : M :=
  fun s =>
    match mEncoders s !! i with
    | Some e =>
        Ok (set_params (release (mELSwitchParamChange e) (params s))
              (set_mEncoders (<[i := set_mELSwitchParamChange None e]> (mEncoders s)) s))
    | None => Fault
    end.

(** [encoder_.mELRotaryParamChange = param_.newListener(l)]: the new function
    is registered first; the token the encoder held before is destroyed with
    the temporary, which unsubscribes the function it stood for. *)
Definition subscribeRotary (i : nat) (p : ParamId) (l : Listener) : M :=
  fun s =>
    match mEncoders s !! i with
    | Some e =>
        let (t, s1) := newListener p l s in
        Ok (set_params (release (mELRotaryParamChange e) (params s1))
              (set_mEncoders (<[i := set_mELRotaryParamChange (Some t) e]> (mEncoders s1)) s1))
    | None => Fault
    end.

Definition subscribeSwitch (i : nat) (p : ParamId) (l : Listener) : M :=
  fun s =>
    match mEncoders s !! i with
    | Some e =>
        let (t, s1) := newListener p l s in
        Ok (set_params (release (mELSwitchParamChange e) (params s1))
              (set_mEncoders (<[i := set_mELSwitchParamChange (Some t) e]> (mEncoders s1)) s1))
    | None => Fault
    end.

(** ** [ofxParameterTwisterImpl]

    Where the class overloads a member on [Encoder&] and on [size_t], the
    [Encoder&] overload carries the suffix [E]; the overloads on the
    parameter type carry the type's name. *)

(** A default-constructed [Encoder]. *)
Definition Encoder_default : Encoder :=
  mkEncoder false 0 false false None None None None.

(** A freshly constructed implementation object, next to the parameters the
    application owns. *)
Definition Twister_new (ps : list Param) : Twister :=
  mkTwister [] (replicate 16 Encoder_default) 0 ps 0 [].

(** [setup()]: the device lookup is outside the model; [midiOut] tells
    whether the output object was created.  The last loop assigns the
    positions and hands every encoder the output. *)
Definition setup (midiOut : bool) (s : Twister) : Twister :=
  set_mEncoders
    (imap (fun i e =>
             mkEncoder midiOut (uint8 (Z.of_nat i)) (rotaryEnabled e) (switchEnabled e)
                       (mELSwitchParamChange e) (mELRotaryParamChange e)
                       (updateSwitchParam e) (updateRotaryParam e))
          (mEncoders s)) s.

Definition clearParamE (encoder_ : nat) (force_ : bool) : M :=
  seqM (onEncoder encoder_ (setRotaryState false force_))
    (seqM (unsubscribeRotary encoder_)
       (seqM (onEncoder encoder_ (setSwitchState false force_))
          (unsubscribeSwitch encoder_))).

Definition clearParam (idx_ : nat) (force_ : bool) : M :=
  fun s =>
    if (idx_ <? length (mEncoders s))%nat then clearParamE idx_ force_ s else Ok s.

Fixpoint forEncoders (slots : list nat) (body : nat -> M) : M :=
  match slots with
  | [] => skip
  | i :: rest => seqM (body i) (forEncoders rest body)
  end.

(** [clear()] *)
Definition clear : M :=
  fun s => forEncoders (seq 0 (length (mEncoders s))) (fun e => clearParamE e true) s.

Definition setParamE_float (encoder_ : nat) (param_ : ParamId) : M :=
  fun s =>
    match params s !! param_ with
    | Some (mkParam (PFloat v mn mx) _) =>
        seqM (onEncoder encoder_ (setRotaryState true false))
          (seqM (sendFrom encoder_ (setRotaryValue (uint16 (ofMap_float_to_hw v mn mx))))
             (seqM (onEncoder encoder_
                      (fun e => (set_updateRotaryParam (Some (RotaryFloatH param_ mn mx)) e, [])))
                (subscribeRotary encoder_ param_ (RotaryFloatL encoder_ mn mx)))) s
    | _ => Fault
    end.

Definition setParamE_int (encoder_ : nat) (param_ : ParamId) : M :=
  fun s =>
    match params s !! param_ with
    | Some (mkParam (PInt v mn mx) _) =>
        seqM (onEncoder encoder_ (setRotaryState true false))
          (seqM (sendFrom encoder_ (setRotaryValue (uint16 (ofMap_int_to_hw v mn mx))))
             (seqM (onEncoder encoder_
                      (fun e => (set_updateRotaryParam (Some (RotaryIntH param_ mn mx)) e, [])))
                (subscribeRotary encoder_ param_ (RotaryIntL encoder_ mn mx)))) s
    | _ => Fault
    end.

Definition setParamE_bool (encoder_ : nat) (param_ : ParamId) : M :=
  fun s =>
    match params s !! param_ with
    | Some (mkParam (PBool b) _) =>
        seqM (onEncoder encoder_ (setSwitchState true false))
          (seqM (sendFrom encoder_ (setSwitchValue (if b then TW_MAX_ENCODER_VALUE else 0)))
             (seqM (onEncoder encoder_
                      (fun e => (set_updateSwitchParam (Some (SwitchBoolH param_)) e, [])))
                (subscribeSwitch encoder_ param_ (SwitchL encoder_)))) s
    | _ => Fault
    end.

Definition setParam_float (idx_ : nat) (param_ : ParamId) : M :=
  fun s =>
    if (idx_ <? length (mEncoders s))%nat then setParamE_float idx_ param_ s else Ok s.

Definition setParam_int (idx_ : nat) (param_ : ParamId) : M :=
  fun s =>
    if (idx_ <? length (mEncoders s))%nat then setParamE_int idx_ param_ s else Ok s.

Definition setParam_bool (idx_ : nat) (param_ : ParamId) : M :=
  fun s =>
    if (idx_ <? length (mEncoders s))%nat then setParamE_bool idx_ param_ s else Ok s.

(** The body of the loop of [setParams] for encoder [e], with the iterator
    at [it] ([None] at the end of the group).  The chain of
    [dynamic_pointer_cast]s is the case analysis on the parameter object. *)
Definition setParams_body (e : nat) (it : option ParamId) : M :=
  match it with
  | Some p =>
      fun s =>
        match params s !! p with
        | Some (mkParam (PFloat _ _ _) _) => setParamE_float e p s
        | Some (mkParam (PInt _ _ _) _) => setParamE_int e p s
        | Some (mkParam (PBool _) _) => setParamE_bool e p s
        | Some (mkParam POther _) => clearParamE e false s
        | None => Fault
        end
  | None =>
      seqM (onEncoder e (setRotaryState false true))
           (onEncoder e (setSwitchState false true))
  end.

Fixpoint setParams_loop (slots : list nat) (it : list ParamId) : M :=
  match slots with
  | [] => skip
  | e :: rest =>
      match it with
      | p :: it' => seqM (setParams_body e (Some p)) (setParams_loop rest it')
      | [] => seqM (setParams_body e None) (setParams_loop rest [])
      end
  end.

Definition setParams (group_ : list ParamId) : M :=
  fun s => setParams_loop (seq 0 (length (mEncoders s))) group_ s.

(** *** LED setters *)

Definition setHueRGB (idx_ : nat) (hue_ : float) : M :=
  fun s =>
    if (idx_ <? length (mEncoders s))%nat
    then sendFrom idx_ (Encoder_setHueRGB hue_) s else Ok s.

Definition setBrightnessRGB (idx_ : nat) (bri_ : float) : M :=
  fun s =>
    if (idx_ <? length (mEncoders s))%nat
    then sendFrom idx_ (Encoder_setBrightnessRGB bri_) s else Ok s.

Definition setBrightnessRotary (idx_ : nat) (bri_ : float) : M :=
  fun s =>
    if (idx_ <? length (mEncoders s))%nat
    then sendFrom idx_ (Encoder_setBrightnessRotary bri_) s else Ok s.

(** The [switch] of [setAnimationRGB(Encoder&, ...)]. *)
Definition modeRGB (anim_ : Animation) (rate_ : Z) : Z :=
  match anim_ with
  | NONE => 0
  | STROBE => uint8 (1 + rate_)
  | PULSE => uint8 (9 + rate_)
  | RAINBOW => 127
  end.

(** The [switch] of [setAnimationRotary(Encoder&, ...)]; [RAINBOW] falls in
    the [default] label, next to [PULSE]. *)
Definition modeRotary (anim_ : Animation) (rate_ : Z) : Z :=
  match anim_ with
  | NONE => 48
  | STROBE => uint8 (49 + rate_)
  | PULSE | RAINBOW => uint8 (57 + rate_)
  end.

Definition setAnimationRGBE (encoder_ : nat) (anim_ : Animation) (rate_ : Z) : M :=
  sendFrom encoder_ (setAnimation (modeRGB anim_ rate_)).

Definition setAnimationRotaryE (encoder_ : nat) (anim_ : Animation) (rate_ : Z) : M :=
  sendFrom encoder_ (setAnimation (modeRotary anim_ rate_)).

Definition is_RAINBOW (a : Animation) : bool :=
  match a with RAINBOW => true | _ => false end.

Definition setAnimationRGB (idx_ : nat) (anim_ : Animation) (rate_ : Z) : M :=
  fun s =>
    if (idx_ <? length (mEncoders s))%nat && (rate_ <? 8)
    then setAnimationRGBE idx_ anim_ rate_ s else Ok s.

Definition setAnimationRotary (idx_ : nat) (anim_ : Animation) (rate_ : Z) : M :=
  fun s =>
    if (idx_ <? length (mEncoders s))%nat && (rate_ <? 8) && negb (is_RAINBOW anim_)
    then setAnimationRotaryE idx_ anim_ rate_ s else Ok s.

(** *** [update()] *)

(** The body of the [while] loop, for the message [m] just received. *)
Definition update_msg (m : MidiCCMessage) : M :=
  fun s =>
    if getCommand m =? 0xB then
      if getChannel m =? 0x0 then
        let encoderID := uint8 (controller m) in
        if controller m =? 0x58 then
          Ok (set_mHighResVelLowByte (Z.land (value m) 0x7F) s)
        else if (Z.to_nat encoderID <? length (mEncoders s))%nat then
          match mEncoders s !! Z.to_nat encoderID with
          | Some e =>
              match
                (if rotaryEnabled e then
                   match updateRotaryParam e with
                   | Some h => callRotaryHandler h (value m) (mHighResVelLowByte s) s
                   | None => Ok s
                   end
                 else Ok s)
              with
              | Ok s1 => Ok (set_mHighResVelLowByte 0 s1)
              | Fault => Fault
              end
          | None => Fault
          end
        else Ok s
      else if getChannel m =? 0x1 then
        let encoderID := Z.to_nat (controller m) in
        match mEncoders s !! encoderID with
        | Some e =>
            if switchEnabled e then
              match updateSwitchParam e with
              | Some h => callSwitchHandler h (value m) 0 s
              | None => Ok s
              end
            else Ok s
        | None => Fault   (* [mEncoders[encoderID]] past the end of the array *)
        end
      else Ok s
    else Ok s.

(** [while (mChannelMidiIn.tryReceive(m)) { ... }]: the messages are taken
    from the front of the queue one at a time, until it is empty. *)
Fixpoint drain (q : list MidiCCMessage) : M :=
  match q with
  | [] => skip
  | m :: q' => fun s => seqM (update_msg m) (drain q') (set_mChannelMidiIn q' s)
  end.

Definition update : M := fun s => drain (mChannelMidiIn s) s.

End Model.

(** ** Well-formed states

    The references held by the closures are valid: every handler refers to a
    live parameter of its own type, and every registered function to an
    encoder of the array. *)

Section WellFormed.
Context {FT : OfFloat} {OM : OfMath}.

Definition listener_ok (n : nat) (v : ParamValue) (l : Listener) : bool :=
  match l, v with
  | RotaryFloatL slot _ _, PFloat _ _ _ => (slot <? n)%nat
  | RotaryIntL slot _ _, PInt _ _ _ => (slot <? n)%nat
  | SwitchL slot, PBool _ => (slot <? n)%nat
  | _, _ => false
  end.

Definition event_ok (n : nat) (v : ParamValue) (ev : list (nat * Listener)) : bool :=
  forallb (fun x => listener_ok n v (snd x)) ev.

Definition param_ok (n : nat) (q : Param) : bool := event_ok n (pval q) (pevent q).

Definition rotaryHandler_ok (ps : list Param) (h : RotaryHandler) : bool :=
  match h with
  | RotaryFloatH p _ _ =>
      match ps !! p with Some (mkParam (PFloat _ _ _) _) => true | _ => false end
  | RotaryIntH p _ _ =>
      match ps !! p with Some (mkParam (PInt _ _ _) _) => true | _ => false end
  end.

Definition switchHandler_ok (ps : list Param) (h : SwitchHandler) : bool :=
  match h with
  | SwitchBoolH p =>
      match ps !! p with Some (mkParam (PBool _) _) => true | _ => false end
  end.

Definition encoder_ok (ps : list Param) (e : Encoder) : bool :=
  match updateRotaryParam e with Some h => rotaryHandler_ok ps h | None => true end
  && match updateSwitchParam e with Some h => switchHandler_ok ps h | None => true end.

Definition wf (s : Twister) : bool :=
  (length (mEncoders s) =? 16)%nat
  && forallb (param_ok 16) (params s)
  && forallb (encoder_ok (params s)) (mEncoders s).

(** Two values of one parameter type. *)
Definition same_kind (v w : ParamValue) : bool :=
  match v, w with
  | PFloat _ _ _, PFloat _ _ _ => true
  | PInt _ _ _, PInt _ _ _ => true
  | PBool _, PBool _ => true
  | POther, POther => true
  | _, _ => false
  end.

(** The parameter a rotary handler captured, and the value it hands to
    [param_.set] for the merged value [hv] (the bounds of the parameter
    object stay as they are). *)
Definition handler_param (h : RotaryHandler) : ParamId :=
  match h with
  | RotaryFloatH p _ _ => p
  | RotaryIntH p _ _ => p
  end.

Definition handler_value (h : RotaryHandler) (hv : Z) (old : ParamValue) : ParamValue :=
  match h, old with
  | RotaryFloatH _ pMin pMax, PFloat _ a b => PFloat (ofMap_hw_to_float hv pMin pMax) a b
  | RotaryIntH _ pMin pMax, PInt _ a b => PInt (ofMap_hw_to_int hv pMin pMax) a b
  | _, _ => old
  end.

(** The events of a trace that are parameter writes. *)
Definition is_ParamSet (ev : Event) : bool :=
  match ev with ParamSet _ _ => true | Sent _ => false end.

Definition writes (tr : list Event) : list Event := List.filter is_ParamSet tr.

(** The frames of a trace. *)
Definition frames (tr : list Event) : list Frame :=
  flat_map (fun ev => match ev with Sent f => [f] | ParamSet _ _ => [] end) tr.

(** What an LED setter may do to the controller: nothing but hand at most
    one frame to the output. *)
Definition led_effect (s s' : Twister) : Prop :=
  mEncoders s' = mEncoders s /\
  mHighResVelLowByte s' = mHighResVelLowByte s /\
  params s' = params s /\
  mChannelMidiIn s' = mChannelMidiIn s /\
  nextToken s' = nextToken s /\
  exists fs : list Frame, trace s' = trace s ++ map Sent fs /\ (length fs <= 1)%nat.

(** What running a member function on another encoder leaves alone: the
    encoder [i], the size of the array, and the values of the parameters. *)
Definition others_kept (i : nat) (s s' : Twister) : Prop :=
  mEncoders s' !! i = mEncoders s !! i /\
  length (mEncoders s') = length (mEncoders s) /\
  pval <$> params s' = pval <$> params s.

(** A piece of code run on encoder [j] returns, and keeps encoder [i]. *)
Definition safe (j i : nat) (a : M) : Prop :=
  forall s, (j < length (mEncoders s))%nat -> exists s', a s = Ok s' /\ others_kept i s s'.

(** The frames of [clearParam(e, false)]: a phenotype change is sent only
    for a flag that reads [true]. *)
Definition unforced_clear_frames (e : Encoder) : list Frame :=
  (if rotaryEnabled e && negb (switchEnabled e) then setEncoderPhenotype 2 e else [])
  ++ (if switchEnabled e then setEncoderPhenotype 2 e else []).

(** The frames of [clearParam(e, true)]. *)
Definition forced_clear_frames (e : Encoder) : list Frame :=
  (if negb (switchEnabled e) then setEncoderPhenotype 2 e else [])
  ++ setEncoderPhenotype 2 e.

End WellFormed.

(** ** An instance of the external arithmetic

    [ofMap] over the rationals, without rounding error: the formula and the
    clamping of openFrameworks, truncation towards zero for the conversion
    to an integer, rounding half away from zero for [std::round]. *)

Definition Qlt_bool (a b : Q) : bool := negb (Qle_bool b a).

Definition FLT_EPSILON : Q := 1 # 8388608.

Definition ofMapQ (value_ inputMin inputMax outputMin outputMax : Q) : Q :=
  if Qlt_bool (Qabs (inputMin - inputMax)) FLT_EPSILON then outputMin
  else
    let outVal :=
      ((value_ - inputMin) / (inputMax - inputMin) * (outputMax - outputMin) + outputMin)%Q in
    if Qlt_bool outputMax outputMin then
      (if Qlt_bool outVal outputMax then outputMax
       else if Qlt_bool outputMin outVal then outputMin else outVal)
    else
      (if Qlt_bool outputMax outVal then outputMax
       else if Qlt_bool outVal outputMin then outputMin else outVal).

Definition truncQ (q : Q) : Z := if Qle_bool 0 q then Qfloor q else Qceiling q.

Definition roundQ (q : Q) : Z :=
  if Qle_bool 0 q then Qfloor (q + (1 # 2)) else Qceiling (q - (1 # 2)).

#[global] Instance QFloat : OfFloat := {| float := Q |}.

#[global] Instance QMath : OfMath := {|
  ofMap_float_to_hw v mn mx := truncQ (ofMapQ v mn mx 0 (inject_Z TW_MAX_ENCODER_VALUE));
  ofMap_hw_to_float h mn mx := ofMapQ (inject_Z h) 0 (inject_Z TW_MAX_ENCODER_VALUE) mn mx;
  ofMap_int_to_hw v mn mx :=
    truncQ (ofMapQ (inject_Z v) (inject_Z mn) (inject_Z mx) 0 (inject_Z TW_MAX_ENCODER_VALUE));
  ofMap_hw_to_int h mn mx :=
    truncQ (ofMapQ (inject_Z h) 0 (inject_Z TW_MAX_ENCODER_VALUE) (inject_Z mn) (inject_Z mx));
  ofMap_round x lo hi := roundQ (ofMapQ x 0 1 (inject_Z lo) (inject_Z hi));
|}.

(** A store with one parameter of each kind, and the controller right after
    [setup()] found the device. *)
Definition demo_params : list (@Param QFloat) :=
  [ mkParam (PFloat (1 # 2)%Q 0%Q 1%Q) [];
    mkParam (PBool true) [];
    mkParam (PInt 5 0 10) [];
    mkParam POther [] ].

Definition demo : @Twister QFloat := setup true (Twister_new demo_params).

Definition run (a : @M QFloat) (s : @Twister QFloat) : @Twister QFloat :=
  match a s with Ok s' => s' | Fault => s end.

(** Slot 5 bound to the float parameter. *)
Definition demo_float5 : @Twister QFloat := run (setParam_float 5 0%nat) demo.

(** Slot 0 bound to the bool parameter. *)
Definition demo_bool0 : @Twister QFloat := run (setParam_bool 0 1%nat) demo.

(** Slot 0 bound to the float parameter. *)
Definition demo_float0 : @Twister QFloat := run (setParam_float 0 0%nat) demo.

(** The frames of a trace that carry [slot] in their second byte. *)
Definition frames_for (slot : Z) (tr : list (@Event QFloat)) : list Frame :=
  List.filter (fun f => match f with [_; c; _] => c =? slot | _ => false end) (frames tr).

(** ** Inbound messages the routing loop is defined on *)

Definition is_byte (b : Z) : bool := (0 <=? b) && (b <? 256).

(** A queued message made of bytes whose controller, when the message is a
    switch message, is a slot of the array. *)
Definition routable (m : MidiCCMessage) : bool :=
  is_byte (controller m)
  && (negb ((getCommand m =? 0xB) && (getChannel m =? 0x1)) || (controller m <? 16)).

Section Bindings.
Context {FT : OfFloat} {OM : OfMath}.

(** The encoder after [setParam] bound a float, an int or a bool parameter
    to it, holding the token [t] of the new subscription. *)
Definition bound_float (p : ParamId) (mn mx : float) (t : Token) (e : Encoder) : Encoder :=
  set_mELRotaryParamChange (Some t)
    (set_updateRotaryParam (Some (RotaryFloatH p mn mx)) (set_rotaryEnabled true e)).

Definition bound_int (p : ParamId) (mn mx : Z) (t : Token) (e : Encoder) : Encoder :=
  set_mELRotaryParamChange (Some t)
    (set_updateRotaryParam (Some (RotaryIntH p mn mx)) (set_rotaryEnabled true e)).

Definition bound_bool (p : ParamId) (t : Token) (e : Encoder) : Encoder :=
  set_mELSwitchParamChange (Some t)
    (set_updateSwitchParam (Some (SwitchBoolH p)) (set_switchEnabled true e)).

(** The encoder after [clearParam]: both flags off, both tokens gone, the
    handlers still in place. *)
Definition cleared (e : Encoder) : Encoder :=
  mkEncoder (mMidiOut e) (pos e) false false None None
            (updateSwitchParam e) (updateRotaryParam e).

Definition clear_frames (force_ : bool) (e : Encoder) : list Frame :=
  if force_ then forced_clear_frames e else unforced_clear_frames e.

(** The event of a parameter with one more registered function. *)
Definition subscribed (id : nat) (l : Listener) (q : Param) : Param :=
  mkParam (pval q) (pevent q ++ [(id, l)]).


(** No function of the event carries the identifier the next subscription
    will get. *)
Definition fresh_event (n : nat) (ev : list (nat * Listener)) : bool :=
  forallb (fun x => (fst x <? n)%nat) ev.

(** Every function registered in [ps'] was registered in [ps], with the
    same parameter. *)
Definition events_within (ps ps' : list Param) : Prop :=
  forall q par',
    ps' !! q = Some par' ->
    exists par, ps !! q = Some par /\ forall x, In x (pevent par') -> In x (pevent par).

(** The function the token [t] stands for is registered nowhere in [ps]. *)
Definition released (t : option Token) (ps : list Param) : Prop :=
  forall p id par x,
    t = Some (p, id) -> ps !! p = Some par -> In x (pevent par) -> fst x <> id.


(** What [setParams] makes of the encoder of a slot, by the type of the
    parameter at the slot's place in the group. *)
Definition slot_after (p : ParamId) (pv : ParamValue) (t : Token) (e : Encoder) : Encoder :=
  match pv with
  | PFloat _ mn mx => bound_float p mn mx t e
  | PInt _ mn mx => bound_int p mn mx t e
  | PBool _ => bound_bool p t e
  | POther => cleared e
  end.

(** The receive callback run on a list of raw messages, oldest first. *)
Definition received (fs : list (list Z)) (s : Twister) : Twister :=
  fold_left (fun st f => _midi_callback f st) fs s.

(** The messages the callback queues for a list of raw messages. *)
Definition decoded (fs : list (list Z)) : list MidiCCMessage :=
  flat_map (fun f => match f with [b0; b1; b2] => [mkMsg b0 b1 b2] | _ => [] end) fs.

(** A result, with the queue replaced. *)
Definition with_queue (q : list MidiCCMessage) (r : Res Twister) : Res Twister :=
  match r with Ok s => Ok (set_mChannelMidiIn q s) | Fault => Fault end.

End Bindings.

(** A message the routing loop skips: not a control change, or on a channel
    other than 0 and 1. *)
Definition ignorable (m : MidiCCMessage) : bool :=
  negb (getCommand m =? 0xB)
  || (negb (getChannel m =? 0x0) && negb (getChannel m =? 0x1)).

(** ** More concrete states *)


(** The encoder of slot 5 once the float parameter is bound to it, and the
    function that binding registered. *)
Definition demo_enc5 : @Encoder QFloat :=
  mkEncoder true 5 true false None (Some (0%nat, 0%nat)) None
            (Some (RotaryFloatH 0 0%Q 1%Q)).

Definition demo_listener5 : @Listener QFloat := RotaryFloatL 5 0%Q 1%Q.

(** An encoder right after [setup()]. *)
Definition demo_enc (out : bool) (i : Z) : @Encoder QFloat :=
  mkEncoder out i false false None None None None.

(** Queueing the frames of a list, oldest first. *)
Definition receive (fs : list Frame) (s : @Twister QFloat) : @Twister QFloat :=
  fold_left (fun st f => _midi_callback f st) fs s.

(** ** Properties *)

Section Theory.
Context {FT : OfFloat} {OM : OfMath}.

Lemma land127_bounds (x : Z) : 0 <= Z.land x 0x7F < 128.
Proof.
  change 0x7F with (Z.ones 7). rewrite Z.land_ones by lia.
  change (2 ^ 7) with 128. apply Z.mod_pos_bound. lia.
Qed.

Lemma uint8_land127 (x : Z) : uint8 (Z.land x 0x7F) = Z.land x 0x7F.
Proof.
  unfold uint8. apply Z.mod_small. pose proof (land127_bounds x). lia.
Qed.

Lemma msb_of_eq (v : Z) : msb_of v = Z.land (Z.shiftr v 7) 0x7F.
Proof. apply uint8_land127. Qed.

Lemma lsb_of_eq (v : Z) : lsb_of v = Z.land v 0x7F.
Proof. apply uint8_land127. Qed.

(** Merging the two seven-bit halves gives back the low fourteen bits. *)
Lemma merge_split (v : Z) :
  Z.lor (Z.shiftl (Z.land (Z.shiftr v 7) 0x7F) 7) (Z.land v 0x7F) = Z.land v 0x3FFF.
Proof.
  apply Z.bits_inj'. intros n Hn.
  rewrite Z.lor_spec, !Z.land_spec.
  change 0x7F with (Z.ones 7). change 0x3FFF with (Z.ones 14).
  rewrite !Z.testbit_ones_nonneg by lia.
  destruct (Z.ltb_spec n 7) as [Hlt | Hge].
  - rewrite Z.shiftl_spec_low by lia. simpl.
    destruct (Z.ltb_spec n 14); [|lia]. reflexivity.
  - rewrite Z.shiftl_spec by lia. rewrite Z.land_spec.
    rewrite Z.shiftr_spec by lia.
    rewrite Z.testbit_ones_nonneg by lia.
    replace (n - 7 + 7) with n by lia.
    rewrite andb_false_r, orb_false_r.
    destruct (Z.ltb_spec (n - 7) 7); destruct (Z.ltb_spec n 14); try lia; reflexivity.
Qed.

Lemma highRezVal_split (v : Z) : highRezVal (msb_of v) (lsb_of v) = Z.land v 0x3FFF.
Proof.
  unfold highRezVal. rewrite msb_of_eq, lsb_of_eq.
  rewrite <- !Z.land_assoc.
  change (Z.land 0x7F 0x7F) with 0x7F.
  rewrite merge_split. unfold uint16.
  change 0x3FFF with (Z.ones 14). rewrite Z.land_ones by lia.
  apply Z.mod_small.
  pose proof (Z.mod_pos_bound v (2 ^ 14) ltac:(lia)). lia.
Qed.

(** C3. Splitting a value of [0, 16383] into [msb = (v >> 7) & 0x7F] and
    [lsb = v & 0x7F], as [setRotaryValue] does, and merging the two with
    [((msb & 0x7F) << 7) | (lsb & 0x7F)], as the inbound rotary handler
    does, gives back the value. *)
Theorem highres_roundtrip (v : Z) :
  0 <= v <= 16383 -> highRezVal (msb_of v) (lsb_of v) = v.
Proof.
  intros Hv. rewrite highRezVal_split.
  change 0x3FFF with (Z.ones 14). rewrite Z.land_ones by lia.
  apply Z.mod_small. lia.
Qed.


(** *** The trace *)

Lemma log_nil (s : Twister) : log [] s = s.
Proof. destruct s. unfold log. simpl. rewrite app_nil_r. reflexivity. Qed.

Lemma log_log (a b : list Event) (s : Twister) : log b (log a s) = log (a ++ b) s.
Proof. unfold log. simpl. rewrite app_assoc. reflexivity. Qed.

(** *** Outbound frames *)

(** C7. With rotary enabled and an output attached, [setRotaryValue(v)]
    hands exactly two three-byte frames to the output, in this order: the
    prefix [0xB0, 0x58, v & 0x7F], then [0xB0, slot, (v >> 7) & 0x7F]. *)
Theorem setRotaryValue_frames (v : Z) (e : Encoder) :
  rotaryEnabled e = true ->
  mMidiOut e = true ->
  setRotaryValue v e
  = [[0xB0; 0x58; Z.land v 0x7F]; [0xB0; pos e; Z.land (Z.shiftr v 7) 0x7F]].
Proof.
  intros Hrot Hout. unfold setRotaryValue, sendToRotary.
  rewrite Hrot, Hout. simpl. rewrite msb_of_eq, lsb_of_eq. reflexivity.
Qed.

Lemma setRotaryValue_disabled (v : Z) (e : Encoder) :
  rotaryEnabled e = false -> setRotaryValue v e = [].
Proof. intros H. unfold setRotaryValue. rewrite H. reflexivity. Qed.

Lemma sendFrom_ok (i : nat) (f : Encoder -> list Frame) (s : Twister) (e : Encoder) :
  mEncoders s !! i = Some e -> sendFrom i f s = Ok (log (map Sent (f e)) s).
Proof. intros H. unfold sendFrom. rewrite H. reflexivity. Qed.

Lemma uint8_small (x : Z) : 0 <= x < 256 -> uint8 x = x.
Proof. intros H. unfold uint8. apply Z.mod_small. exact H. Qed.

(** C8. The wire code of an animation request, for a rate of [0..7]:
    [NONE] is 0 on RGB and 48 on rotary, [STROBE] is [1 + rate] and
    [49 + rate], [PULSE] is [9 + rate] and [57 + rate], [RAINBOW] is 127 on
    RGB; a [RAINBOW] request for a rotary slot sends nothing.  So
    ([STROBE], 3) is 4 on RGB and 52 on rotary. *)
Theorem animation_codes (s : Twister) (idx : nat) (e : Encoder) (rate : Z) :
  mEncoders s !! idx = Some e ->
  mMidiOut e = true ->
  0 <= rate <= 7 ->
  setAnimationRGB idx NONE rate s = Ok (log [Sent [0xB2; pos e; 0]] s) /\
  setAnimationRGB idx STROBE rate s = Ok (log [Sent [0xB2; pos e; 1 + rate]] s) /\
  setAnimationRGB idx PULSE rate s = Ok (log [Sent [0xB2; pos e; 9 + rate]] s) /\
  setAnimationRGB idx RAINBOW rate s = Ok (log [Sent [0xB2; pos e; 127]] s) /\
  setAnimationRotary idx NONE rate s = Ok (log [Sent [0xB2; pos e; 48]] s) /\
  setAnimationRotary idx STROBE rate s = Ok (log [Sent [0xB2; pos e; 49 + rate]] s) /\
  setAnimationRotary idx PULSE rate s = Ok (log [Sent [0xB2; pos e; 57 + rate]] s) /\
  setAnimationRotary idx RAINBOW rate s = Ok s /\
  modeRGB STROBE 3 = 4 /\
  modeRotary STROBE 3 = 52.
Proof.
  intros He Hout Hrate.
  assert (Hidx : (idx <? length (mEncoders s))%nat = true).
  { apply Nat.ltb_lt. eapply lookup_lt_Some. exact He. }
  assert (Hr : (rate <? 8) = true) by (apply Z.ltb_lt; lia).
  unfold setAnimationRGB, setAnimationRotary, setAnimationRGBE, setAnimationRotaryE.
  rewrite Hidx, Hr. simpl.
  rewrite !(sendFrom_ok _ _ _ _ He). unfold setAnimation. rewrite Hout.
  unfold modeRGB, modeRotary.
  rewrite !uint8_small by lia.
  repeat split; reflexivity.
Qed.

(** *** LED setters *)

Lemma led_effect_refl (s : Twister) : led_effect s s.
Proof.
  unfold led_effect. repeat split. exists []. simpl.
  rewrite app_nil_r. split; [reflexivity | lia].
Qed.

Lemma led_effect_log (s : Twister) (fs : list Frame) :
  (length fs <= 1)%nat -> led_effect s (log (map Sent fs) s).
Proof.
  intros H. unfold led_effect. simpl. repeat split. exists fs. split; [reflexivity | exact H].
Qed.

Lemma sendFrom_led (i : nat) (f : Encoder -> list Frame) (s : Twister) :
  (forall e, (length (f e) <= 1)%nat) ->
  (i <? length (mEncoders s))%nat = true ->
  exists s', sendFrom i f s = Ok s' /\ led_effect s s'.
Proof.
  intros Hf Hi. apply Nat.ltb_lt in Hi.
  destruct (lookup_lt_is_Some_2 (mEncoders s) i Hi) as [e He].
  exists (log (map Sent (f e)) s). split.
  - apply sendFrom_ok. exact He.
  - apply led_effect_log. apply Hf.
Qed.

Lemma guarded_led (g : bool) (i : nat) (f : Encoder -> list Frame) (s : Twister) :
  (forall e, (length (f e) <= 1)%nat) ->
  (g = true -> (i <? length (mEncoders s))%nat = true) ->
  exists s', (if g then sendFrom i f s else Ok s) = Ok s' /\ led_effect s s'.
Proof.
  intros Hf Hg. destruct g.
  - apply sendFrom_led; auto.
  - exists s. split; [reflexivity | apply led_effect_refl].
Qed.

(** C10. For every slot index and every argument, the LED operations
    [setHueRGB], [setBrightnessRGB], [setBrightnessRotary], [setAnimationRGB]
    and [setAnimationRotary] leave every encoder (flags, handlers,
    subscriptions), the parameters and the pending low byte as they were;
    they hand one frame to the output, or none. *)
Theorem led_setters_frame (s : Twister) (idx : nat) (x : float) (anim : Animation) (rate : Z) :
  (exists s', setHueRGB idx x s = Ok s' /\ led_effect s s') /\
  (exists s', setBrightnessRGB idx x s = Ok s' /\ led_effect s s') /\
  (exists s', setBrightnessRotary idx x s = Ok s' /\ led_effect s s') /\
  (exists s', setAnimationRGB idx anim rate s = Ok s' /\ led_effect s s') /\
  (exists s', setAnimationRotary idx anim rate s = Ok s' /\ led_effect s s').
Proof.
  unfold setHueRGB, setBrightnessRGB, setBrightnessRotary, setAnimationRGB,
    setAnimationRotary, setAnimationRGBE, setAnimationRotaryE.
  repeat split; apply guarded_led;
    try (intros e; unfold Encoder_setHueRGB, Encoder_setBrightnessRGB,
           Encoder_setBrightnessRotary, setAnimation;
         destruct (mMidiOut e); simpl; lia);
    intros Hg; repeat (apply andb_prop in Hg; destruct Hg as [Hg ?]); exact Hg.
Qed.

(** *** Inbound routing: slot indices *)

(** A rotary message for a controller past the array is skipped. *)
Lemma rotary_message_out_of_range (s : Twister) (m : MidiCCMessage) :
  getCommand m = 0xB ->
  getChannel m = 0x0 ->
  controller m <> 0x58 ->
  (length (mEncoders s) <= Z.to_nat (uint8 (controller m)))%nat ->
  update_msg m s = Ok s.
Proof.
  intros Hc Hch Hne Hlen. unfold update_msg. rewrite Hc, Hch. simpl.
  destruct (Z.eqb_spec (controller m) 88); [contradiction|].
  destruct (Nat.ltb_spec (Z.to_nat (uint8 (controller m))) (length (mEncoders s)));
    [lia | reflexivity].
Qed.

(** A switch message is not: the encoder is read without a bounds check. *)
Lemma switch_message_out_of_range (s : Twister) (m : MidiCCMessage) :
  getCommand m = 0xB ->
  getChannel m = 0x1 ->
  (length (mEncoders s) <= Z.to_nat (controller m))%nat ->
  update_msg m s = Fault.
Proof.
  intros Hc Hch Hlen. unfold update_msg. rewrite Hc, Hch. simpl.
  rewrite (lookup_ge_None_2 _ _ Hlen). reflexivity.
Qed.

(** C1. A switch message (command 0xB, channel 0x1) whose controller is 16 or
    more should be ignored by [update()].  The code does not do that: on
    [0xB1 0x10 0x7F] it reads [mEncoders[16]], past the end of the array, and
    the run is undefined. *)
Theorem update_switch_controller_16 :
  getCommand (mkMsg 0xB1 0x10 0x7F) = 0xB /\
  getChannel (mkMsg 0xB1 0x10 0x7F) = 0x1 /\
  update (_midi_callback [0xB1; 0x10; 0x7F] (setup true (Twister_new []))) = Fault.
Proof. repeat split. Qed.

(** *** Well-formed states and [ofParameter::set] *)

Lemma forallb_insert {A : Type} (f : A -> bool) (l : list A) (i : nat) (x : A) :
  forallb f l = true -> f x = true -> forallb f (<[i := x]> l) = true.
Proof.
  revert i. induction l as [|y l IH]; intros i Hl Hx; [exact Hl|].
  simpl in Hl. apply andb_prop in Hl. destruct Hl as [Hy Hl].
  destruct i as [|i]; simpl.
  - rewrite Hx, Hl. reflexivity.
  - rewrite Hy. simpl. apply IH; assumption.
Qed.

Lemma forallb_lookup {A : Type} (f : A -> bool) (l : list A) (i : nat) (x : A) :
  forallb f l = true -> l !! i = Some x -> f x = true.
Proof.
  revert i. induction l as [|y l IH]; intros i Hl Hi; [discriminate|].
  simpl in Hl. apply andb_prop in Hl. destruct Hl as [Hy Hl].
  destruct i as [|i]; simpl in Hi.
  - inversion Hi. subst. exact Hy.
  - eapply IH; eassumption.
Qed.

Lemma forallb_impl {A : Type} (f g : A -> bool) (l : list A) :
  (forall x, f x = true -> g x = true) -> forallb f l = true -> forallb g l = true.
Proof.
  intros Hfg. induction l as [|y l IH]; simpl; [reflexivity|].
  intros H. apply andb_prop in H. destruct H as [Hy Hl].
  rewrite (Hfg _ Hy), (IH Hl). reflexivity.
Qed.

Lemma wf_parts (s : Twister) :
  wf s = true ->
  length (mEncoders s) = 16%nat /\
  forallb (param_ok 16) (params s) = true /\
  forallb (encoder_ok (params s)) (mEncoders s) = true.
Proof.
  unfold wf. intros H.
  apply andb_prop in H. destruct H as [H H3].
  apply andb_prop in H. destruct H as [H1 H2].
  apply Nat.eqb_eq in H1. auto.
Qed.

Lemma wf_intro (s : Twister) :
  length (mEncoders s) = 16%nat ->
  forallb (param_ok 16) (params s) = true ->
  forallb (encoder_ok (params s)) (mEncoders s) = true ->
  wf s = true.
Proof.
  intros H1 H2 H3. unfold wf. rewrite H2, H3.
  apply Nat.eqb_eq in H1. rewrite H1. reflexivity.
Qed.

Lemma listener_ok_same_kind (n : nat) (v w : ParamValue) (l : Listener) :
  same_kind v w = true -> listener_ok n v l = listener_ok n w l.
Proof. destruct v, w, l; simpl; intros H; try discriminate; reflexivity. Qed.

Lemma event_ok_same_kind (n : nat) (v w : ParamValue) (ev : list (nat * Listener)) :
  same_kind v w = true -> event_ok n v ev = event_ok n w ev.
Proof.
  intros H. unfold event_ok. induction ev as [|x ev IH]; simpl; [reflexivity|].
  rewrite (listener_ok_same_kind n v w _ H), IH. reflexivity.
Qed.

Lemma runListener_ok (es : list Encoder) (v : ParamValue) (l : Listener) :
  listener_ok (length es) v l = true -> exists fs, runListener es v l = Some fs.
Proof.
  destruct l, v; simpl; intros H; try discriminate;
    apply Nat.ltb_lt in H;
    destruct (lookup_lt_is_Some_2 es slot H) as [e He]; rewrite He; eauto.
Qed.

(** Calling the registered functions only sends frames. *)
Lemma notify_ok (ev : list (nat * Listener)) (v : ParamValue) (s : Twister) :
  event_ok (length (mEncoders s)) v ev = true ->
  exists fs, notify ev v s = Ok (log (map Sent fs) s).
Proof.
  revert s. induction ev as [|[id l] ev IH]; intros s H.
  - exists []. simpl. unfold skip. rewrite log_nil. reflexivity.
  - simpl in H. apply andb_prop in H. destruct H as [Hl Hev].
    destruct (runListener_ok _ _ _ Hl) as [fs0 Hfs0].
    simpl. rewrite Hfs0.
    destruct (IH (log (map Sent fs0) s) Hev) as [fs1 Hfs1].
    exists (fs0 ++ fs1). rewrite Hfs1, log_log, map_app. reflexivity.
Qed.

Lemma rotaryHandler_ok_insert (ps : list Param) (p : ParamId) (q : Param)
      (v : ParamValue) (ev : list (nat * Listener)) (h : RotaryHandler) :
  ps !! p = Some q ->
  same_kind (pval q) v = true ->
  rotaryHandler_ok ps h = true ->
  rotaryHandler_ok (<[p := mkParam v ev]> ps) h = true.
Proof.
  intros Hp Hk. pose proof (lookup_lt_Some _ _ _ Hp) as Hlt.
  destruct h as [p0 a b | p0 a b]; simpl;
    (destruct (decide (p0 = p)) as [-> | Hne];
     [ rewrite list_lookup_insert_eq by exact Hlt; rewrite Hp;
       destruct q as [[] ?], v; simpl in *; congruence
     | rewrite list_lookup_insert_ne by congruence; auto ]).
Qed.

Lemma switchHandler_ok_insert (ps : list Param) (p : ParamId) (q : Param)
      (v : ParamValue) (ev : list (nat * Listener)) (h : SwitchHandler) :
  ps !! p = Some q ->
  same_kind (pval q) v = true ->
  switchHandler_ok ps h = true ->
  switchHandler_ok (<[p := mkParam v ev]> ps) h = true.
Proof.
  intros Hp Hk. pose proof (lookup_lt_Some _ _ _ Hp) as Hlt.
  destruct h as [p0]; simpl;
    (destruct (decide (p0 = p)) as [-> | Hne];
     [ rewrite list_lookup_insert_eq by exact Hlt; rewrite Hp;
       destruct q as [[] ?], v; simpl in *; congruence
     | rewrite list_lookup_insert_ne by congruence; auto ]).
Qed.

Lemma encoder_ok_insert (ps : list Param) (p : ParamId) (q : Param)
      (v : ParamValue) (ev : list (nat * Listener)) (e : Encoder) :
  ps !! p = Some q ->
  same_kind (pval q) v = true ->
  encoder_ok ps e = true ->
  encoder_ok (<[p := mkParam v ev]> ps) e = true.
Proof.
  intros Hp Hk H. unfold encoder_ok in *.
  apply andb_prop in H. destruct H as [Hr Hs].
  apply andb_true_intro. split.
  - destruct (updateRotaryParam e); [|reflexivity].
    eapply rotaryHandler_ok_insert; eassumption.
  - destruct (updateSwitchParam e); [|reflexivity].
    eapply switchHandler_ok_insert; eassumption.
Qed.

(** [param_.set(v)] on a live parameter of the type of [v]: the value is
    stored, the call is recorded, the registered functions send their
    frames, and the state stays well formed. *)
Lemma store_ok (s : Twister) (p : ParamId) (q : Param) (v : ParamValue) :
  wf s = true ->
  params s !! p = Some q ->
  same_kind (pval q) v = true ->
  exists fs,
    store p v (pevent q) s
    = Ok (log (ParamSet p v :: map Sent fs)
            (set_params (<[p := mkParam v (pevent q)]> (params s)) s)) /\
    wf (log (ParamSet p v :: map Sent fs)
          (set_params (<[p := mkParam v (pevent q)]> (params s)) s)) = true.
Proof.
  intros Hwf Hp Hk. destruct (wf_parts s Hwf) as (Hlen & Hps & Hes).
  pose proof (forallb_lookup _ _ _ _ Hps Hp) as Hq. unfold param_ok in Hq.
  rewrite (event_ok_same_kind _ _ _ _ Hk) in Hq.
  unfold store.
  destruct (notify_ok (pevent q) v
              (log [ParamSet p v] (set_params (<[p := mkParam v (pevent q)]> (params s)) s)))
    as [fs Hfs].
  { simpl. rewrite Hlen. exact Hq. }
  exists fs. rewrite Hfs, log_log. split; [reflexivity|].
  apply wf_intro; simpl.
  - exact Hlen.
  - apply forallb_insert; [exact Hps | exact Hq].
  - eapply forallb_impl; [|exact Hes].
    intros e He. eapply encoder_ok_insert; eassumption.
Qed.

Lemma writes_sent (fs : list Frame) : writes (map Sent fs) = [].
Proof. induction fs as [|f fs IH]; simpl; [reflexivity | exact IH]. Qed.

Lemma writes_set (p : ParamId) (v : ParamValue) (fs : list Frame) :
  writes (ParamSet p v :: map Sent fs) = [ParamSet p v].
Proof. unfold writes. simpl. fold (writes (map Sent fs)). rewrite writes_sent. reflexivity. Qed.

(** *** The handlers *)

Lemma callRotaryHandler_float (s : Twister) (p : ParamId) (pMin pMax v a b : float)
      (ev : list (nat * Listener)) (msb lsb : Z) :
  wf s = true ->
  params s !! p = Some (mkParam (PFloat v a b) ev) ->
  let w := PFloat (ofMap_hw_to_float (highRezVal msb lsb) pMin pMax) a b in
  exists fs,
    callRotaryHandler (RotaryFloatH p pMin pMax) msb lsb s
    = Ok (log (ParamSet p w :: map Sent fs)
            (set_params (<[p := mkParam w ev]> (params s)) s)) /\
    wf (log (ParamSet p w :: map Sent fs)
          (set_params (<[p := mkParam w ev]> (params s)) s)) = true.
Proof.
  intros Hwf Hp w. simpl. unfold ofParameter_set_float. rewrite Hp.
  apply (store_ok s p (mkParam (PFloat v a b) ev) w Hwf Hp). reflexivity.
Qed.

Lemma callRotaryHandler_int (s : Twister) (p : ParamId) (pMin pMax v a b : Z)
      (ev : list (nat * Listener)) (msb lsb : Z) :
  wf s = true ->
  params s !! p = Some (mkParam (PInt v a b) ev) ->
  let w := PInt (ofMap_hw_to_int (highRezVal msb lsb) pMin pMax) a b in
  exists fs,
    callRotaryHandler (RotaryIntH p pMin pMax) msb lsb s
    = Ok (log (ParamSet p w :: map Sent fs)
            (set_params (<[p := mkParam w ev]> (params s)) s)) /\
    wf (log (ParamSet p w :: map Sent fs)
          (set_params (<[p := mkParam w ev]> (params s)) s)) = true.
Proof.
  intros Hwf Hp w. simpl. unfold ofParameter_set_int. rewrite Hp.
  apply (store_ok s p (mkParam (PInt v a b) ev) w Hwf Hp). reflexivity.
Qed.

Lemma callSwitchHandler_bool (s : Twister) (p : ParamId) (b0 : bool)
      (ev : list (nat * Listener)) (msb lsb : Z) :
  wf s = true ->
  params s !! p = Some (mkParam (PBool b0) ev) ->
  let w := PBool (63 <? msb) in
  exists fs,
    callSwitchHandler (SwitchBoolH p) msb lsb s
    = Ok (log (ParamSet p w :: map Sent fs)
            (set_params (<[p := mkParam w ev]> (params s)) s)) /\
    wf (log (ParamSet p w :: map Sent fs)
          (set_params (<[p := mkParam w ev]> (params s)) s)) = true.
Proof.
  intros Hwf Hp w. simpl. unfold ofParameter_set_bool. rewrite Hp.
  replace (if 63 <? msb then true else false) with (63 <? msb)
    by (destruct (63 <? msb); reflexivity).
  apply (store_ok s p (mkParam (PBool b0) ev) w Hwf Hp). reflexivity.
Qed.

(** In a well-formed state a rotary handler returns; it touches neither
    the encoders, nor the queue, nor the pending low byte. *)
Lemma callRotaryHandler_ok (s : Twister) (h : RotaryHandler) (msb lsb : Z) :
  wf s = true ->
  rotaryHandler_ok (params s) h = true ->
  exists s1,
    callRotaryHandler h msb lsb s = Ok s1 /\
    wf s1 = true /\
    mEncoders s1 = mEncoders s /\
    mChannelMidiIn s1 = mChannelMidiIn s /\
    mHighResVelLowByte s1 = mHighResVelLowByte s.
Proof.
  intros Hwf Hh. destruct h as [p pMin pMax | p pMin pMax]; simpl in Hh.
  - destruct (params s !! p) as [[[v a b| | |] ev]|] eqn:Hp; try discriminate.
    destruct (callRotaryHandler_float s p pMin pMax v a b ev msb lsb Hwf Hp) as (fs & Hc & Hw).
    eexists. split; [exact Hc|]. split; [exact Hw|]. repeat split.
  - destruct (params s !! p) as [[[|v a b| |] ev]|] eqn:Hp; try discriminate.
    destruct (callRotaryHandler_int s p pMin pMax v a b ev msb lsb Hwf Hp) as (fs & Hc & Hw).
    eexists. split; [exact Hc|]. split; [exact Hw|]. repeat split.
Qed.

(** A rotary handler in a well-formed state: one call of [param_.set], with
    the value rescaled from the merged [highRezVal]. *)
Lemma callRotaryHandler_spec (s : Twister) (h : RotaryHandler) (old : ParamValue)
      (ev : list (nat * Listener)) (msb lsb : Z) :
  wf s = true ->
  rotaryHandler_ok (params s) h = true ->
  params s !! handler_param h = Some (mkParam old ev) ->
  let p := handler_param h in
  let w := handler_value h (highRezVal msb lsb) old in
  exists fs,
    callRotaryHandler h msb lsb s
    = Ok (log (ParamSet p w :: map Sent fs)
            (set_params (<[p := mkParam w ev]> (params s)) s)) /\
    wf (log (ParamSet p w :: map Sent fs)
          (set_params (<[p := mkParam w ev]> (params s)) s)) = true.
Proof.
  intros Hwf Hok Hp.
  destruct h as [p pMin pMax | p pMin pMax]; simpl in Hok, Hp; rewrite Hp in Hok;
    destruct old as [v a b | v a b | b |]; try discriminate.
  - apply (callRotaryHandler_float s p pMin pMax v a b ev msb lsb Hwf Hp).
  - apply (callRotaryHandler_int s p pMin pMax v a b ev msb lsb Hwf Hp).
Qed.

Lemma handler_value_again (h : RotaryHandler) (x y : Z) (old : ParamValue) :
  handler_value h x (handler_value h y old) = handler_value h x old.
Proof. destruct h, old; reflexivity. Qed.

Lemma wf_encoder_ok (s : Twister) (i : nat) (e : Encoder) :
  wf s = true -> mEncoders s !! i = Some e -> encoder_ok (params s) e = true.
Proof.
  intros Hwf He. destruct (wf_parts s Hwf) as (_ & _ & Hes).
  eapply forallb_lookup; eassumption.
Qed.

(** *** [update()]: rotary messages *)

(** The rotary branch for a controller inside the array. *)
Lemma update_msg_rotary (s : Twister) (m : MidiCCMessage) :
  wf s = true ->
  getCommand m = 0xB ->
  getChannel m = 0x0 ->
  0 <= controller m < 16 ->
  exists s1,
    update_msg m s = Ok (set_mHighResVelLowByte 0 s1) /\
    wf s1 = true /\
    mEncoders s1 = mEncoders s /\
    mChannelMidiIn s1 = mChannelMidiIn s.
Proof.
  intros Hwf Hc Hch Hctl. destruct (wf_parts s Hwf) as (Hlen & _ & _).
  unfold update_msg. rewrite Hc, Hch. simpl.
  destruct (Z.eqb_spec (controller m) 88) as [E|_]; [lia|].
  rewrite uint8_small by lia.
  assert (Hlt : (Z.to_nat (controller m) < length (mEncoders s))%nat) by lia.
  destruct (Nat.ltb_spec (Z.to_nat (controller m)) (length (mEncoders s))); [|lia].
  destruct (lookup_lt_is_Some_2 _ _ Hlt) as [e He]. rewrite He.
  destruct (rotaryEnabled e); [|exists s; auto].
  pose proof (wf_encoder_ok s _ e Hwf He) as Hok. unfold encoder_ok in Hok.
  apply andb_prop in Hok. destruct Hok as [Hr _].
  destruct (updateRotaryParam e) as [h|]; [|exists s; auto].
  destruct (callRotaryHandler_ok s h (value m) (mHighResVelLowByte s) Hwf Hr)
    as (s1 & Hcall & Hw1 & He1 & Hq1 & _).
  rewrite Hcall. exists s1. auto.
Qed.


(** The prefix message caches the low seven bits of its value. *)
Lemma update_msg_prefix (s : Twister) (m : MidiCCMessage) :
  getCommand m = 0xB ->
  getChannel m = 0x0 ->
  controller m = 0x58 ->
  update_msg m s = Ok (set_mHighResVelLowByte (Z.land (value m) 0x7F) s).
Proof.
  intros Hc Hch Hctl. unfold update_msg. rewrite Hc, Hch, Hctl. reflexivity.
Qed.

(** *** [update()]: switch messages *)

(** C9. For every byte received for a bound bool parameter, the switch
    handler writes [true] if and only if the byte is above 63: 64 gives
    [true], 63 gives [false]. *)
Theorem switch_handler_threshold (s : Twister) (slot : nat) (e : Encoder) (p : ParamId)
        (b0 : bool) (ev : list (nat * Listener)) (b : Z) :
  wf s = true ->
  mEncoders s !! slot = Some e ->
  switchEnabled e = true ->
  updateSwitchParam e = Some (SwitchBoolH p) ->
  params s !! p = Some (mkParam (PBool b0) ev) ->
  exists s' tr,
    update_msg (mkMsg 0xB1 (Z.of_nat slot) b) s = Ok s' /\
    params s' !! p = Some (mkParam (PBool (63 <? b)) ev) /\
    trace s' = trace s ++ tr /\
    writes tr = [ParamSet p (PBool (63 <? b))] /\
    ((63 <? b) = true <-> b > 63) /\
    (63 <? 64) = true /\ (63 <? 63) = false.
Proof.
  intros Hwf He Hsw Hh Hp.
  destruct (callSwitchHandler_bool s p b0 ev b 0 Hwf Hp) as (fs & Hcall & _).
  unfold update_msg. simpl getCommand. simpl getChannel. simpl.
  rewrite Nat2Z.id, He, Hsw, Hh, Hcall.
  eexists. exists (ParamSet p (PBool (63 <? b)) :: map Sent fs).
  split; [reflexivity|]. simpl.
  split. { apply list_lookup_insert_eq. eapply lookup_lt_Some. exact Hp. }
  split; [reflexivity|].
  split. { apply writes_set. }
  split; [|split; reflexivity].
  rewrite Z.ltb_lt. lia.
Qed.

(** *** [update()]: the queue *)

Lemma update_two (s : Twister) (m1 m2 : MidiCCMessage) (s1 s2 : Twister) :
  mChannelMidiIn s = [m1; m2] ->
  update_msg m1 (set_mChannelMidiIn [m2] s) = Ok s1 ->
  update_msg m2 (set_mChannelMidiIn [] s1) = Ok s2 ->
  update s = Ok s2.
Proof.
  intros Hq H1 H2. unfold update. rewrite Hq. simpl. unfold seqM.
  rewrite H1. rewrite H2. reflexivity.
Qed.

Lemma update_one (s : Twister) (m : MidiCCMessage) (s1 : Twister) :
  mChannelMidiIn s = [m] ->
  update_msg m (set_mChannelMidiIn [] s) = Ok s1 ->
  update s = Ok s1.
Proof.
  intros Hq H1. unfold update. rewrite Hq. simpl. unfold seqM.
  rewrite H1. reflexivity.
Qed.

(** A rotary message for slot 5, with a binding on it. *)
Lemma update_msg_slot5 (s : Twister) (e : Encoder) (h : RotaryHandler) (old : ParamValue)
      (ev : list (nat * Listener)) (x : Z) :
  wf s = true ->
  mEncoders s !! 5%nat = Some e ->
  rotaryEnabled e = true ->
  updateRotaryParam e = Some h ->
  params s !! handler_param h = Some (mkParam old ev) ->
  let p := handler_param h in
  let w := handler_value h (highRezVal x (mHighResVelLowByte s)) old in
  exists fs,
    update_msg (mkMsg 0xB0 0x05 x) s
    = Ok (set_mHighResVelLowByte 0
            (log (ParamSet p w :: map Sent fs)
               (set_params (<[p := mkParam w ev]> (params s)) s))) /\
    wf (log (ParamSet p w :: map Sent fs)
          (set_params (<[p := mkParam w ev]> (params s)) s)) = true.
Proof.
  intros Hwf He Hrot Hh Hp p w.
  assert (Hok : rotaryHandler_ok (params s) h = true).
  { pose proof (wf_encoder_ok s _ e Hwf He) as Hok. unfold encoder_ok in Hok.
    rewrite Hh in Hok. apply andb_prop in Hok. apply Hok. }
  destruct (callRotaryHandler_spec s h old ev x (mHighResVelLowByte s) Hwf Hok Hp)
    as (fs & Hcall & Hw).
  exists fs. split; [|exact Hw].
  destruct (wf_parts s Hwf) as (Hlen & _ & _).
  unfold update_msg. simpl getCommand. simpl getChannel. simpl controller. simpl value.
  change (11 =? 11) with true. change (0 =? 0) with true. change (5 =? 88) with false.
  change (Z.to_nat (uint8 5)) with 5%nat. rewrite Hlen. simpl (5 <? 16)%nat.
  cbv iota. rewrite He, Hrot, Hh, Hcall. reflexivity.
Qed.

Lemma wf_handler_param (s : Twister) (i : nat) (e : Encoder) (h : RotaryHandler) :
  wf s = true ->
  mEncoders s !! i = Some e ->
  updateRotaryParam e = Some h ->
  exists old ev, params s !! handler_param h = Some (mkParam old ev).
Proof.
  intros Hwf He Hh. pose proof (wf_encoder_ok s _ e Hwf He) as Hok.
  unfold encoder_ok in Hok. rewrite Hh in Hok. apply andb_prop in Hok.
  destruct Hok as [Hok _].
  destruct h as [p ? ? | p ? ?]; simpl in *;
    destruct (params s !! p) as [[old ev]|]; try discriminate; eauto.
Qed.

(** C6. With slot 5 rotary-enabled, the queued frames [0xB0, 0x58, 0x10]
    and [0xB0, 0x05, 0x40] make [update()] call the handler of slot 5 once,
    with the value [(0x40 << 7) | 0x10], and leave the pending low byte at 0;
    a lone [0xB0, 0x05, 0x00] after that is merged to 0.  (The handler's one
    call of [param_.set] is what the trace shows of it.) *)
Theorem routing_scenario (s : Twister) (e : Encoder) (h : RotaryHandler) :
  wf s = true ->
  mChannelMidiIn s = [] ->
  mHighResVelLowByte s = 0 ->
  mEncoders s !! 5%nat = Some e ->
  rotaryEnabled e = true ->
  updateRotaryParam e = Some h ->
  exists old s1 tr1,
    pval <$> params s !! handler_param h = Some old /\
    update (_midi_callback [0xB0; 0x05; 0x40] (_midi_callback [0xB0; 0x58; 0x10] s)) = Ok s1 /\
    trace s1 = trace s ++ tr1 /\
    writes tr1
    = [ParamSet (handler_param h) (handler_value h (Z.lor (Z.shiftl 0x40 7) 0x10) old)] /\
    mHighResVelLowByte s1 = 0 /\
    exists s2 tr2,
      update (_midi_callback [0xB0; 0x05; 0x00] s1) = Ok s2 /\
      trace s2 = trace s1 ++ tr2 /\
      writes tr2 = [ParamSet (handler_param h) (handler_value h 0 old)].
Proof.
  intros Hwf Hq _ He Hrot Hh.
  destruct (wf_handler_param s _ e h Hwf He Hh) as (old & ev & Hp).
  set (p := handler_param h) in *.
  set (sa := set_mHighResVelLowByte 16 (set_mChannelMidiIn [] s)).
  destruct (update_msg_slot5 sa e h old ev 0x40) as (fs1 & Hu1 & Hw1);
    try assumption.
  cbv zeta in Hu1, Hw1. fold p in Hu1, Hw1.
  change (highRezVal 64 (mHighResVelLowByte sa)) with 8208 in Hu1, Hw1.
  set (w1 := handler_value h 8208 old) in *.
  set (sb := log (ParamSet p w1 :: map Sent fs1)
               (set_params (<[p := mkParam w1 ev]> (params sa)) sa)) in *.
  assert (Hpb : params sb !! p = Some (mkParam w1 ev)).
  { simpl. apply list_lookup_insert_eq. eapply lookup_lt_Some. exact Hp. }
  set (s1 := set_mHighResVelLowByte 0 sb) in *.
  destruct (update_msg_slot5 s1 e h w1 ev 0x00) as (fs2 & Hu2 & _); try assumption.
  cbv zeta in Hu2. fold p in Hu2.
  change (highRezVal 0 (mHighResVelLowByte s1)) with 0 in Hu2.
  unfold w1 in Hu2 at 1 2. rewrite handler_value_again in Hu2.
  exists old, s1, (ParamSet p w1 :: map Sent fs1).
  split. { rewrite Hp. reflexivity. }
  split.
  { apply (update_two _ (mkMsg 0xB0 0x58 0x10) (mkMsg 0xB0 0x05 0x40)
             (set_mHighResVelLowByte 16 (set_mChannelMidiIn [mkMsg 0xB0 0x05 0x40] s))).
    - simpl. rewrite Hq. reflexivity.
    - reflexivity.
    - exact Hu1. }
  split; [reflexivity|].
  split; [apply writes_set|].
  split; [reflexivity|].
  eexists. exists (ParamSet p (handler_value h 0 old) :: map Sent fs2).
  split.
  { eapply update_one.
    - reflexivity.
    - exact Hu2. }
  split; [reflexivity|].
  apply writes_set.
Qed.

(** *** Bindings *)

Lemma onEncoder_ok (i : nat) (f : Encoder -> Encoder * list Frame) (s : Twister) (e : Encoder) :
  mEncoders s !! i = Some e ->
  onEncoder i f s
  = Ok (log (map Sent (snd (f e))) (set_mEncoders (<[i := fst (f e)]> (mEncoders s)) s)).
Proof. intros H. unfold onEncoder. rewrite H. destruct (f e). reflexivity. Qed.

Lemma lookup_insert_same (es : list Encoder) (i : nat) (e e' : Encoder) :
  es !! i = Some e -> <[i := e']> es !! i = Some e'.
Proof. intros H. apply list_lookup_insert_eq. eapply lookup_lt_Some. exact H. Qed.

Lemma setRotaryState_on (e : Encoder) :
  fst (setRotaryState true false e) = set_rotaryEnabled true e \/
  fst (setRotaryState true false e) = e /\ rotaryEnabled e = true.
Proof.
  unfold setRotaryState. destruct (rotaryEnabled e) eqn:E; simpl; auto.
Qed.

Lemma setSwitchState_on (e : Encoder) :
  fst (setSwitchState true false e) = set_switchEnabled true e \/
  fst (setSwitchState true false e) = e /\ switchEnabled e = true.
Proof.
  unfold setSwitchState. destruct (switchEnabled e) eqn:E; simpl; auto.
Qed.

(** A registered function stays registered through [release], unless it is
    the one the released token stands for. *)
Lemma release_keeps (t : option Token) (ps : list Param) (q : ParamId) (par : Param)
      (id : nat) (l : Listener) :
  ps !! q = Some par ->
  In (id, l) (pevent par) ->
  t <> Some (q, id) ->
  exists par', release t ps !! q = Some par' /\ In (id, l) (pevent par').
Proof.
  intros Hq Hin Ht. destruct t as [[p0 id0]|]; simpl; [|eauto].
  destruct (decide (p0 = q)) as [-> | Hne].
  - rewrite list_lookup_alter_eq, Hq. simpl. eexists. split; [reflexivity|]. simpl.
    apply list_elem_of_In. apply list_elem_of_filter. split.
    + simpl. intros ->. apply Ht. reflexivity.
    + apply list_elem_of_In. exact Hin.
  - rewrite list_lookup_alter_ne by exact Hne. eauto.
Qed.

Lemma newListener_keeps (p : ParamId) (l0 : Listener) (s : Twister) (q : ParamId)
      (par : Param) (id : nat) (l : Listener) :
  params s !! q = Some par ->
  In (id, l) (pevent par) ->
  exists par', params (snd (newListener p l0 s)) !! q = Some par' /\ In (id, l) (pevent par').
Proof.
  intros Hq Hin. simpl.
  destruct (decide (p = q)) as [-> | Hne].
  - rewrite list_lookup_alter_eq, Hq. simpl. eexists. split; [reflexivity|]. simpl.
    apply in_or_app. left. exact Hin.
  - rewrite list_lookup_alter_ne by exact Hne. eauto.
Qed.

(** C5, as the code has it. [setParam] with a float parameter replaces the
    rotary binding of the slot (flag, handler and subscription; the function
    of the previous rotary subscription is the only one removed) and leaves
    the switch binding in place: its flag, its handler and its subscription
    are as before.  A slot can so carry a rotary and a switch binding at
    once. *)
Theorem setParam_float_keeps_switch_binding (s : Twister) (idx : nat) (e : Encoder)
        (p : ParamId) (v mn mx : float) (ev : list (nat * Listener)) :
  mEncoders s !! idx = Some e ->
  params s !! p = Some (mkParam (PFloat v mn mx) ev) ->
  exists s' e',
    setParam_float idx p s = Ok s' /\
    mEncoders s' !! idx = Some e' /\
    rotaryEnabled e' = true /\
    updateRotaryParam e' = Some (RotaryFloatH p mn mx) /\
    mELRotaryParamChange e' = Some (p, nextToken s) /\
    switchEnabled e' = switchEnabled e /\
    updateSwitchParam e' = updateSwitchParam e /\
    mELSwitchParamChange e' = mELSwitchParamChange e /\
    params s'
    = release (mELRotaryParamChange e)
        (alter (fun q => mkParam (pval q) (pevent q ++ [(nextToken s, RotaryFloatL idx mn mx)]))
           p (params s)) /\
    (forall q par id l,
        params s !! q = Some par ->
        In (id, l) (pevent par) ->
        mELRotaryParamChange e <> Some (q, id) ->
        exists par', params s' !! q = Some par' /\ In (id, l) (pevent par')).
Proof.
  intros He Hp.
  assert (Hidx : (idx <? length (mEncoders s))%nat = true).
  { apply Nat.ltb_lt. eapply lookup_lt_Some. exact He. }
  unfold setParam_float. rewrite Hidx. unfold setParamE_float. rewrite Hp.
  unfold seqM. rewrite (onEncoder_ok _ _ _ _ He).
  set (e1 := fst (setRotaryState true false e)).
  set (s1 := log _ (set_mEncoders _ s)).
  assert (He1 : mEncoders s1 !! idx = Some e1) by (eapply lookup_insert_same; exact He).
  rewrite (sendFrom_ok _ _ _ _ He1).
  set (s2 := log _ s1).
  rewrite (onEncoder_ok idx _ s2 e1 He1). simpl fst. simpl snd.
  set (e3 := set_updateRotaryParam _ e1).
  set (s3 := log _ (set_mEncoders _ s2)).
  assert (He3 : mEncoders s3 !! idx = Some e3) by (eapply lookup_insert_same; exact He1).
  unfold subscribeRotary. rewrite He3. simpl.
  assert (Hfields : rotaryEnabled e1 = true /\ switchEnabled e1 = switchEnabled e /\
                    updateSwitchParam e1 = updateSwitchParam e /\
                    mELSwitchParamChange e1 = mELSwitchParamChange e /\
                    mELRotaryParamChange e1 = mELRotaryParamChange e).
  { destruct (setRotaryState_on e) as [E | [E Hr]]; fold e1 in E; rewrite E; simpl; auto. }
  destruct Hfields as (F1 & F2 & F3 & F4 & F5).
  eexists. eexists. split; [reflexivity|]. simpl.
  split. { eapply lookup_insert_same. exact He3. }
  simpl. rewrite F5.
  repeat (split; [assumption || reflexivity|]).
  intros q par id l Hq Hin Ht.
  destruct (newListener_keeps p (RotaryFloatL idx mn mx) s q par id l Hq Hin)
    as (par1 & Hq1 & Hin1).
  eapply release_keeps; eassumption.
Qed.

(** The same the other way round: [setParam] with a bool parameter replaces
    the switch binding and leaves the rotary binding in place. *)
Lemma setParam_bool_keeps_rotary_binding (s : Twister) (idx : nat) (e : Encoder)
      (p : ParamId) (b : bool) (ev : list (nat * Listener)) :
  mEncoders s !! idx = Some e ->
  params s !! p = Some (mkParam (PBool b) ev) ->
  exists s' e',
    setParam_bool idx p s = Ok s' /\
    mEncoders s' !! idx = Some e' /\
    switchEnabled e' = true /\
    updateSwitchParam e' = Some (SwitchBoolH p) /\
    mELSwitchParamChange e' = Some (p, nextToken s) /\
    rotaryEnabled e' = rotaryEnabled e /\
    updateRotaryParam e' = updateRotaryParam e /\
    mELRotaryParamChange e' = mELRotaryParamChange e /\
    params s'
    = release (mELSwitchParamChange e)
        (alter (fun q => mkParam (pval q) (pevent q ++ [(nextToken s, SwitchL idx)]))
           p (params s)).
Proof.
  intros He Hp.
  assert (Hidx : (idx <? length (mEncoders s))%nat = true).
  { apply Nat.ltb_lt. eapply lookup_lt_Some. exact He. }
  unfold setParam_bool. rewrite Hidx. unfold setParamE_bool. rewrite Hp.
  unfold seqM. rewrite (onEncoder_ok _ _ _ _ He).
  set (e1 := fst (setSwitchState true false e)).
  set (s1 := log _ (set_mEncoders _ s)).
  assert (He1 : mEncoders s1 !! idx = Some e1) by (eapply lookup_insert_same; exact He).
  rewrite (sendFrom_ok _ _ _ _ He1).
  set (s2 := log _ s1).
  rewrite (onEncoder_ok idx _ s2 e1 He1). simpl fst. simpl snd.
  set (e3 := set_updateSwitchParam _ e1).
  set (s3 := log _ (set_mEncoders _ s2)).
  assert (He3 : mEncoders s3 !! idx = Some e3) by (eapply lookup_insert_same; exact He1).
  unfold subscribeSwitch. rewrite He3. simpl.
  assert (Hfields : switchEnabled e1 = true /\ rotaryEnabled e1 = rotaryEnabled e /\
                    updateRotaryParam e1 = updateRotaryParam e /\
                    mELRotaryParamChange e1 = mELRotaryParamChange e /\
                    mELSwitchParamChange e1 = mELSwitchParamChange e).
  { destruct (setSwitchState_on e) as [E | [E Hr]]; fold e1 in E; rewrite E; simpl; auto. }
  destruct Hfields as (F1 & F2 & F3 & F4 & F5).
  eexists. eexists. split; [reflexivity|]. simpl.
  split. { eapply lookup_insert_same. exact He3. }
  simpl. rewrite F5.
  repeat (split; [assumption || reflexivity|]). reflexivity.
Qed.

(** *** [setParams]: what one slot does to the others *)

Lemma others_kept_refl (i : nat) (s : Twister) : others_kept i s s.
Proof. unfold others_kept. auto. Qed.

Lemma others_kept_trans (i : nat) (s1 s2 s3 : Twister) :
  others_kept i s1 s2 -> others_kept i s2 s3 -> others_kept i s1 s3.
Proof.
  unfold others_kept. intros (A1 & A2 & A3) (B1 & B2 & B3).
  repeat split; congruence.
Qed.

Lemma pval_alter (g : Param -> list (nat * Listener)) (p : nat) (ps : list Param) :
  pval <$> alter (fun q => mkParam (pval q) (g q)) p ps = pval <$> ps.
Proof.
  revert p. induction ps as [|q ps IH]; intros p; [reflexivity|].
  destruct p as [|p]; simpl; [reflexivity|].
  f_equal. apply IH.
Qed.

Lemma pval_release (t : option Token) (ps : list Param) :
  pval <$> release t ps = pval <$> ps.
Proof.
  destruct t as [[p id]|]; simpl; [|reflexivity].
  apply (pval_alter (fun q => filter (fun x => fst x <> id) (pevent q))).
Qed.

Lemma seqM_safe (j i : nat) (a b : M) : safe j i a -> safe j i b -> safe j i (seqM a b).
Proof.
  intros Ha Hb s Hj. destruct (Ha s Hj) as (s1 & E1 & K1).
  assert (Hj1 : (j < length (mEncoders s1))%nat).
  { destruct K1 as (_ & L & _). rewrite L. exact Hj. }
  destruct (Hb s1 Hj1) as (s2 & E2 & K2).
  exists s2. unfold seqM. rewrite E1. split; [exact E2|].
  eapply others_kept_trans; eassumption.
Qed.

Lemma onEncoder_safe (j i : nat) (f : Encoder -> Encoder * list Frame) :
  j <> i -> safe j i (onEncoder j f).
Proof.
  intros Hne s Hj. destruct (lookup_lt_is_Some_2 _ _ Hj) as [e He].
  rewrite (onEncoder_ok _ _ _ _ He). eexists. split; [reflexivity|].
  unfold others_kept. simpl. rewrite length_insert.
  rewrite list_lookup_insert_ne by exact Hne. auto.
Qed.

Lemma sendFrom_safe (j i : nat) (f : Encoder -> list Frame) : safe j i (sendFrom j f).
Proof.
  intros s Hj. destruct (lookup_lt_is_Some_2 _ _ Hj) as [e He].
  rewrite (sendFrom_ok _ _ _ _ He). eexists. split; [reflexivity|].
  unfold others_kept. simpl. auto.
Qed.

Lemma unsubscribeRotary_safe (j i : nat) : j <> i -> safe j i (unsubscribeRotary j).
Proof.
  intros Hne s Hj. destruct (lookup_lt_is_Some_2 _ _ Hj) as [e He].
  unfold unsubscribeRotary. rewrite He. eexists. split; [reflexivity|].
  unfold others_kept. simpl. rewrite length_insert, pval_release.
  rewrite list_lookup_insert_ne by exact Hne. auto.
Qed.

Lemma unsubscribeSwitch_safe (j i : nat) : j <> i -> safe j i (unsubscribeSwitch j).
Proof.
  intros Hne s Hj. destruct (lookup_lt_is_Some_2 _ _ Hj) as [e He].
  unfold unsubscribeSwitch. rewrite He. eexists. split; [reflexivity|].
  unfold others_kept. simpl. rewrite length_insert, pval_release.
  rewrite list_lookup_insert_ne by exact Hne. auto.
Qed.

Lemma subscribeRotary_safe (j i : nat) (p : ParamId) (l : Listener) :
  j <> i -> safe j i (subscribeRotary j p l).
Proof.
  intros Hne s Hj. destruct (lookup_lt_is_Some_2 _ _ Hj) as [e He].
  unfold subscribeRotary. rewrite He. simpl. eexists. split; [reflexivity|].
  unfold others_kept. simpl. rewrite length_insert, pval_release.
  rewrite (pval_alter (fun q => pevent q ++ [(nextToken s, l)])).
  rewrite list_lookup_insert_ne by exact Hne. auto.
Qed.

Lemma subscribeSwitch_safe (j i : nat) (p : ParamId) (l : Listener) :
  j <> i -> safe j i (subscribeSwitch j p l).
Proof.
  intros Hne s Hj. destruct (lookup_lt_is_Some_2 _ _ Hj) as [e He].
  unfold subscribeSwitch. rewrite He. simpl. eexists. split; [reflexivity|].
  unfold others_kept. simpl. rewrite length_insert, pval_release.
  rewrite (pval_alter (fun q => pevent q ++ [(nextToken s, l)])).
  rewrite list_lookup_insert_ne by exact Hne. auto.
Qed.

Lemma clearParamE_safe (j i : nat) (force_ : bool) : j <> i -> safe j i (clearParamE j force_).
Proof.
  intros Hne. unfold clearParamE.
  repeat apply seqM_safe;
    auto using onEncoder_safe, unsubscribeRotary_safe, unsubscribeSwitch_safe.
Qed.

Lemma setParams_body_safe (j i : nat) (it : option ParamId) (s : Twister) :
  j <> i ->
  (j < length (mEncoders s))%nat ->
  (forall p, it = Some p -> (p < length (params s))%nat) ->
  exists s', setParams_body j it s = Ok s' /\ others_kept i s s'.
Proof.
  intros Hne Hj Hit.
  destruct it as [p|]; simpl.
  - destruct (lookup_lt_is_Some_2 _ _ (Hit p eq_refl)) as [[pv ev] Hp]. rewrite Hp.
    destruct pv as [v mn mx | v mn mx | b |].
    + unfold setParamE_float. rewrite Hp.
      refine (seqM_safe j i _ _ _ (seqM_safe j i _ _ _ (seqM_safe j i _ _ _ _)) s Hj);
        auto using onEncoder_safe, sendFrom_safe, subscribeRotary_safe.
    + unfold setParamE_int. rewrite Hp.
      refine (seqM_safe j i _ _ _ (seqM_safe j i _ _ _ (seqM_safe j i _ _ _ _)) s Hj);
        auto using onEncoder_safe, sendFrom_safe, subscribeRotary_safe.
    + unfold setParamE_bool. rewrite Hp.
      refine (seqM_safe j i _ _ _ (seqM_safe j i _ _ _ (seqM_safe j i _ _ _ _)) s Hj);
        auto using onEncoder_safe, sendFrom_safe, subscribeSwitch_safe.
    + apply clearParamE_safe; assumption.
  - refine (seqM_safe j i _ _ _ _ s Hj); apply onEncoder_safe; exact Hne.
Qed.

Lemma others_kept_params_length (i : nat) (s s' : Twister) :
  others_kept i s s' -> length (params s') = length (params s).
Proof.
  intros (_ & _ & H). apply (f_equal length) in H.
  rewrite !length_fmap in H. exact H.
Qed.

(** The loop over slots other than [i] returns, and keeps encoder [i]. *)
Lemma setParams_loop_safe (i : nat) (slots : list nat) :
  forall (it : list ParamId) (s : Twister),
    Forall (fun j => j <> i) slots ->
    Forall (fun j => (j < length (mEncoders s))%nat) slots ->
    Forall (fun p => (p < length (params s))%nat) it ->
    exists s', setParams_loop slots it s = Ok s' /\ others_kept i s s'.
Proof.
  induction slots as [|j slots IH]; intros it s Hne Hlt Hit.
  - exists s. split; [reflexivity | apply others_kept_refl].
  - inversion Hne as [|? ? Hj1 Hne']. inversion Hlt as [|? ? Hj2 Hlt']. subst.
    assert (Hstep : forall o it',
               (forall p, o = Some p -> (p < length (params s))%nat) ->
               Forall (fun p => (p < length (params s))%nat) it' ->
               exists s', seqM (setParams_body j o) (setParams_loop slots it') s = Ok s' /\
                          others_kept i s s').
    { intros o it' Ho Hit'.
      destruct (setParams_body_safe j i o s Hj1 Hj2 Ho) as (s1 & E1 & K1).
      pose proof K1 as (_ & L1 & _).
      pose proof (others_kept_params_length _ _ _ K1) as P1.
      destruct (IH it' s1 Hne') as (s2 & E2 & K2).
      { rewrite L1. exact Hlt'. }
      { rewrite P1. exact Hit'. }
      exists s2. unfold seqM. rewrite E1. split; [exact E2|].
      eapply others_kept_trans; eassumption. }
    destruct it as [|p it].
    + apply (Hstep None []); [discriminate | constructor].
    + inversion Hit as [|? ? Hp Hit']. subst.
      apply (Hstep (Some p) it); [intros ? [= <-]; exact Hp | exact Hit'].
Qed.

Lemma seqM_assoc (a b c : M) (s : Twister) :
  seqM (seqM a b) c s = seqM a (seqM b c) s.
Proof. unfold seqM. destruct (a s); reflexivity. Qed.

Lemma seqM_ext (a b b' : M) (s : Twister) :
  (forall s1, b s1 = b' s1) -> seqM a b s = seqM a b' s.
Proof. intros H. unfold seqM. destruct (a s); [apply H | reflexivity]. Qed.

Lemma setParams_loop_app (l1 l2 : list nat) :
  forall (it : list ParamId) (s : Twister),
    setParams_loop (l1 ++ l2) it s
    = seqM (setParams_loop l1 it) (setParams_loop l2 (drop (length l1) it)) s.
Proof.
  induction l1 as [|j l1 IH]; intros it s.
  - simpl. rewrite drop_0. reflexivity.
  - destruct it as [|p it].
    + change (setParams_loop ((j :: l1) ++ l2) [] s)
        with (seqM (setParams_body j None) (setParams_loop (l1 ++ l2) []) s).
      change (setParams_loop (j :: l1) [])
        with (seqM (setParams_body j None) (setParams_loop l1 [])).
      rewrite seqM_assoc. apply seqM_ext. intros s1.
      rewrite IH. rewrite !drop_nil. reflexivity.
    + change (setParams_loop ((j :: l1) ++ l2) (p :: it) s)
        with (seqM (setParams_body j (Some p)) (setParams_loop (l1 ++ l2) it) s).
      change (setParams_loop (j :: l1) (p :: it))
        with (seqM (setParams_body j (Some p)) (setParams_loop l1 it)).
      rewrite seqM_assoc. apply seqM_ext. intros s1.
      rewrite IH. reflexivity.
Qed.

(** [clearParam(e, false)] on a slot of the array. *)
Lemma clearParamE_unforced (s : Twister) (i : nat) (e : Encoder) :
  mEncoders s !! i = Some e ->
  exists s',
    clearParamE i false s = Ok s' /\
    mEncoders s' !! i
    = Some (mkEncoder (mMidiOut e) (pos e) false false None None
                      (updateSwitchParam e) (updateRotaryParam e)) /\
    trace s' = trace s ++ map Sent (unforced_clear_frames e) /\
    params s'
    = release (mELSwitchParamChange e) (release (mELRotaryParamChange e) (params s)) /\
    length (mEncoders s') = length (mEncoders s).
Proof.
  intros He. unfold clearParamE, seqM.
  rewrite (onEncoder_ok _ _ _ _ He).
  set (r1 := setRotaryState false false e).
  set (s1 := log _ (set_mEncoders _ s)).
  assert (He1 : mEncoders s1 !! i = Some (fst r1)) by (eapply lookup_insert_same; exact He).
  unfold unsubscribeRotary. rewrite He1.
  set (e2 := set_mELRotaryParamChange None (fst r1)).
  set (s2 := set_params _ (set_mEncoders _ s1)).
  assert (He2 : mEncoders s2 !! i = Some e2) by (eapply lookup_insert_same; exact He1).
  rewrite (onEncoder_ok _ _ _ _ He2).
  set (r3 := setSwitchState false false e2).
  set (s3 := log _ (set_mEncoders _ s2)).
  assert (He3 : mEncoders s3 !! i = Some (fst r3)) by (eapply lookup_insert_same; exact He2).
  unfold unsubscribeSwitch. rewrite He3.
  eexists. split; [reflexivity|]. simpl.
  rewrite !length_insert.
  split.
  { erewrite lookup_insert_same by exact He3. f_equal.
    subst r3 e2 r1. unfold setSwitchState, setRotaryState.
    destruct e as [out ps rot sw t1 t2 h1 h2]. destruct rot, sw; reflexivity. }
  split.
  { rewrite <- app_assoc, <- map_app. do 2 f_equal.
    subst r3 e2 r1. unfold unforced_clear_frames, setSwitchState, setRotaryState.
    destruct e as [out ps rot sw t1 t2 h1 h2]. destruct rot, sw; reflexivity. }
  split; [|reflexivity].
  subst r3 e2 r1. unfold setSwitchState, setRotaryState.
  destruct e as [out ps rot sw t1 t2 h1 h2]. destruct rot, sw; reflexivity.
Qed.

(** [clearParam(e, true)] on a slot of the array: the same encoder state, but
    the phenotype change is sent whatever the flags read. *)
Lemma clearParamE_forced (s : Twister) (i : nat) (e : Encoder) :
  mEncoders s !! i = Some e ->
  exists s',
    clearParamE i true s = Ok s' /\
    mEncoders s' !! i
    = Some (mkEncoder (mMidiOut e) (pos e) false false None None
                      (updateSwitchParam e) (updateRotaryParam e)) /\
    trace s' = trace s ++ map Sent (forced_clear_frames e).
Proof.
  intros He. unfold clearParamE, seqM.
  rewrite (onEncoder_ok _ _ _ _ He).
  set (r1 := setRotaryState false true e).
  set (s1 := log _ (set_mEncoders _ s)).
  assert (He1 : mEncoders s1 !! i = Some (fst r1)) by (eapply lookup_insert_same; exact He).
  unfold unsubscribeRotary. rewrite He1.
  set (e2 := set_mELRotaryParamChange None (fst r1)).
  set (s2 := set_params _ (set_mEncoders _ s1)).
  assert (He2 : mEncoders s2 !! i = Some e2) by (eapply lookup_insert_same; exact He1).
  rewrite (onEncoder_ok _ _ _ _ He2).
  set (r3 := setSwitchState false true e2).
  set (s3 := log _ (set_mEncoders _ s2)).
  assert (He3 : mEncoders s3 !! i = Some (fst r3)) by (eapply lookup_insert_same; exact He2).
  unfold unsubscribeSwitch. rewrite He3.
  eexists. split; [reflexivity|]. simpl.
  split.
  { erewrite lookup_insert_same by exact He3. f_equal.
    subst r3 e2 r1. unfold setSwitchState, setRotaryState.
    destruct e as [out ps rot sw t1 t2 h1 h2]. destruct rot, sw; reflexivity. }
  rewrite <- app_assoc, <- map_app. do 2 f_equal.
  subst r3 e2 r1. unfold forced_clear_frames, setSwitchState, setRotaryState.
  destruct e as [out ps rot sw t1 t2 h1 h2]. destruct rot, sw; reflexivity.
Qed.

(** With both flags reading [false] and an output attached, the forced clear
    sends the phenotype change twice and the unforced one sends nothing. *)
Lemma clear_frames_differ (e : Encoder) :
  mMidiOut e = true ->
  rotaryEnabled e = false ->
  switchEnabled e = false ->
  unforced_clear_frames e = [] /\
  forced_clear_frames e = [[0xB4; pos e; 2]; [0xB4; pos e; 2]].
Proof.
  intros Ho Hr Hs. unfold unforced_clear_frames, forced_clear_frames, setEncoderPhenotype.
  rewrite Ho, Hr, Hs. split; reflexivity.
Qed.

Lemma seq_split (i n : nat) :
  (i < n)%nat -> seq 0 n = seq 0 i ++ i :: seq (S i) (n - S i).
Proof.
  intros H. replace n with (i + S (n - S i))%nat at 1 by lia.
  rewrite seq_app. reflexivity.
Qed.

(** C4, as the code has it. In [setParams(group)], a slot whose parameter
    exists but is neither float, int nor bool is cleared with the force flag
    off: both flags end [false] and both subscriptions are released, but a
    phenotype change is sent only for a flag that read [true] (none at all
    when both read [false]). *)
Theorem setParams_unmatched_slot (s : Twister) (group : list ParamId) (i : nat)
        (e : Encoder) (p : ParamId) (ev : list (nat * Listener)) :
  Forall (fun q => (q < length (params s))%nat) group ->
  mEncoders s !! i = Some e ->
  group !! i = Some p ->
  params s !! p = Some (mkParam POther ev) ->
  exists s1 s2 s',
    setParams_loop (seq 0 i) group s = Ok s1 /\
    mEncoders s1 !! i = Some e /\
    setParams_body i (Some p) s1 = Ok s2 /\
    clearParamE i false s1 = Ok s2 /\
    trace s2 = trace s1 ++ map Sent (unforced_clear_frames e) /\
    setParams_loop (seq (S i) (length (mEncoders s) - S i)) (drop (S i) group) s2 = Ok s' /\
    setParams group s = Ok s' /\
    mEncoders s' !! i
    = Some (mkEncoder (mMidiOut e) (pos e) false false None None
                      (updateSwitchParam e) (updateRotaryParam e)).
Proof.
  intros Hgroup He Hi Hp.
  pose proof (lookup_lt_Some _ _ _ He) as Hlt.
  (* the slots before [i] *)
  destruct (setParams_loop_safe i (seq 0 i) group s) as (s1 & E1 & K1).
  { apply Forall_forall. intros j Hj. apply elem_of_seq in Hj. lia. }
  { apply Forall_forall. intros j Hj. apply elem_of_seq in Hj. lia. }
  { exact Hgroup. }
  pose proof K1 as (Ke1 & Kl1 & Kp1).
  pose proof (others_kept_params_length _ _ _ K1) as Pl1.
  assert (He1 : mEncoders s1 !! i = Some e) by (rewrite Ke1; exact He).
  assert (Hp1 : exists ev1, params s1 !! p = Some (mkParam POther ev1)).
  { assert (H : (pval <$> params s1) !! p = Some POther).
    { rewrite Kp1, list_lookup_fmap, Hp. reflexivity. }
    rewrite list_lookup_fmap in H.
    destruct (params s1 !! p) as [[pv ev1]|]; [|discriminate].
    simpl in H. inversion H. subst. eauto. }
  destruct Hp1 as [ev1 Hp1].
  (* the slot itself *)
  destruct (clearParamE_unforced s1 i e He1) as (s2 & E2 & He2 & Ht2 & Hps2 & Hl2).
  assert (Eb : setParams_body i (Some p) s1 = Ok s2).
  { simpl. rewrite Hp1. exact E2. }
  (* the slots after [i] *)
  destruct (setParams_loop_safe i (seq (S i) (length (mEncoders s) - S i))
              (drop (S i) group) s2) as (s' & E3 & K3).
  { apply Forall_forall. intros j Hj. apply elem_of_seq in Hj. lia. }
  { apply Forall_forall. intros j Hj. apply elem_of_seq in Hj. rewrite Hl2, Kl1. lia. }
  { assert (Hlen2 : length (params s2) = length (params s)).
    { rewrite Hps2. destruct (mELSwitchParamChange e) as [[? ?]|],
        (mELRotaryParamChange e) as [[? ?]|]; simpl; rewrite ?length_alter; exact Pl1. }
    rewrite Hlen2. apply Forall_drop. exact Hgroup. }
  exists s1, s2, s'.
  repeat (split; [assumption|]).
  split.
  - unfold setParams. rewrite (seq_split i _ Hlt), setParams_loop_app.
    unfold seqM at 1. rewrite E1. rewrite length_seq.
    rewrite (drop_S _ _ _ Hi).
    change (setParams_loop (i :: ?l) (p :: ?it))
      with (seqM (setParams_body i (Some p)) (setParams_loop l it)).
    unfold seqM. rewrite Eb. exact E3.
  - destruct K3 as (Ke3 & _). rewrite Ke3. exact He2.
Qed.

(** ** Further properties of the code *)

(** *** The message codec *)

(** X1. The first byte of a message splits into command (high nibble) and
    channel (low nibble) without loss. *)
Theorem command_channel_split (m : MidiCCMessage) :
  0 <= command_channel m < 256 ->
  0 <= getCommand m < 16 /\
  0 <= getChannel m < 16 /\
  16 * getCommand m + getChannel m = command_channel m.
Proof.
  intros H. unfold getCommand, getChannel.
  rewrite Z.shiftr_div_pow2 by lia.
  change 0x0F with (Z.ones 4). rewrite Z.land_ones by lia.
  change (2 ^ 4) with 16.
  pose proof (Z.div_mod (command_channel m) 16 ltac:(lia)).
  pose proof (Z.mod_pos_bound (command_channel m) 16 ltac:(lia)).
  assert (0 <= command_channel m / 16) by (apply Z.div_pos; lia).
  assert (command_channel m / 16 < 16) by (apply Z.div_lt_upper_bound; lia).
  repeat split; lia.
Qed.

(** X2. The receive callback queues a three-byte message at the back, with
    its bytes as command/channel, controller and value; a message of any
    other length is dropped.  It touches nothing but the queue. *)
Theorem midi_callback_queue (message : list Z) (s : Twister) :
  mEncoders (_midi_callback message s) = mEncoders s /\
  mHighResVelLowByte (_midi_callback message s) = mHighResVelLowByte s /\
  params (_midi_callback message s) = params s /\
  trace (_midi_callback message s) = trace s /\
  (length message <> 3%nat -> _midi_callback message s = s) /\
  (forall b0 b1 b2,
      message = [b0; b1; b2] ->
      mChannelMidiIn (_midi_callback message s) = mChannelMidiIn s ++ [mkMsg b0 b1 b2]).
Proof.
  destruct message as [|b0 [|b1 [|b2 [|b3 rest]]]]; simpl;
    repeat split; try reflexivity; try (intros; congruence);
    intros ? ? ? [= <- <- <-]; reflexivity.
Qed.

(** *** [update()]: every branch *)

Lemma callSwitchHandler_ok (s : Twister) (h : SwitchHandler) (msb lsb : Z) :
  wf s = true ->
  switchHandler_ok (params s) h = true ->
  exists s1,
    callSwitchHandler h msb lsb s = Ok s1 /\
    wf s1 = true /\
    mEncoders s1 = mEncoders s /\
    mChannelMidiIn s1 = mChannelMidiIn s /\
    mHighResVelLowByte s1 = mHighResVelLowByte s.
Proof.
  intros Hwf Hh. destruct h as [p]. simpl in Hh.
  destruct (params s !! p) as [[[| |b0|] ev]|] eqn:Hp; try discriminate.
  destruct (callSwitchHandler_bool s p b0 ev msb lsb Hwf Hp) as (fs & Hc & Hw).
  eexists. split; [exact Hc|]. split; [exact Hw|]. repeat split.
Qed.

Lemma update_msg_switch (s : Twister) (m : MidiCCMessage) :
  wf s = true ->
  getCommand m = 0xB ->
  getChannel m = 0x1 ->
  0 <= controller m < 16 ->
  exists s1,
    update_msg m s = Ok s1 /\
    wf s1 = true /\
    mEncoders s1 = mEncoders s /\
    mChannelMidiIn s1 = mChannelMidiIn s /\
    mHighResVelLowByte s1 = mHighResVelLowByte s.
Proof.
  intros Hwf Hc Hch Hctl. destruct (wf_parts s Hwf) as (Hlen & _ & _).
  unfold update_msg. rewrite Hc, Hch. simpl.
  assert (Hlt : (Z.to_nat (controller m) < length (mEncoders s))%nat) by lia.
  destruct (lookup_lt_is_Some_2 _ _ Hlt) as [e He]. rewrite He.
  destruct (switchEnabled e); [|exists s; auto].
  pose proof (wf_encoder_ok s _ e Hwf He) as Hok. unfold encoder_ok in Hok.
  apply andb_prop in Hok. destruct Hok as [_ Hs].
  destruct (updateSwitchParam e) as [h|]; [|exists s; auto].
  apply callSwitchHandler_ok; assumption.
Qed.

Lemma update_msg_skip (s : Twister) (m : MidiCCMessage) :
  getCommand m <> 0xB \/ (getChannel m <> 0x0 /\ getChannel m <> 0x1) ->
  update_msg m s = Ok s.
Proof.
  intros H. unfold update_msg.
  destruct (Z.eqb_spec (getCommand m) 11) as [Hc|Hc]; [|reflexivity].
  destruct H as [H | [H0 H1]]; [contradiction|].
  destruct (Z.eqb_spec (getChannel m) 0); [contradiction|].
  destruct (Z.eqb_spec (getChannel m) 1); [contradiction|].
  reflexivity.
Qed.

Lemma is_byte_range (b : Z) : is_byte b = true -> 0 <= b < 256.
Proof. unfold is_byte. intros H. apply andb_prop in H. lia. Qed.

(** One turn of the loop on a routable message. *)
Lemma update_msg_routable (s : Twister) (m : MidiCCMessage) :
  wf s = true ->
  routable m = true ->
  exists s1,
    update_msg m s = Ok s1 /\
    wf s1 = true /\
    mEncoders s1 = mEncoders s /\
    mChannelMidiIn s1 = mChannelMidiIn s.
Proof.
  intros Hwf Hr. unfold routable in Hr. apply andb_prop in Hr. destruct Hr as [Hb Hr].
  apply is_byte_range in Hb.
  destruct (Z.eqb_spec (getCommand m) 11) as [Hc|Hc];
    [|exists s; split; [apply update_msg_skip; auto | auto]].
  destruct (Z.eqb_spec (getChannel m) 0) as [Hch|Hch0].
  - destruct (Z.eq_dec (controller m) 0x58) as [E|NE].
    + rewrite (update_msg_prefix s m Hc Hch E). eexists. split; [reflexivity|]. auto.
    + destruct (Z_lt_dec (controller m) 16) as [Hlt|Hge].
      * destruct (update_msg_rotary s m Hwf Hc Hch ltac:(lia)) as (s1 & Hu & Hw & He & Hq).
        exists (set_mHighResVelLowByte 0 s1). auto.
      * exists s. split; [|auto]. apply rotary_message_out_of_range; try assumption.
        destruct (wf_parts s Hwf) as (Hlen & _ & _). rewrite Hlen.
        rewrite uint8_small by lia. lia.
  - destruct (Z.eqb_spec (getChannel m) 1) as [Hch|Hch1].
    + simpl in Hr. apply Z.ltb_lt in Hr.
      destruct (update_msg_switch s m Hwf Hc Hch ltac:(lia)) as (s1 & Hu & Hw & He & Hq & _).
      exists s1. auto.
    + exists s. split; [apply update_msg_skip; auto | auto].
Qed.

Lemma drain_ok (q : list MidiCCMessage) :
  forall s : Twister,
    wf s = true ->
    forallb routable q = true ->
    exists s',
      drain q s = Ok s' /\
      wf s' = true /\
      mEncoders s' = mEncoders s /\
      mChannelMidiIn s' = match q with [] => mChannelMidiIn s | _ => [] end.
Proof.
  induction q as [|m q IH]; intros s Hwf Hq.
  - exists s. auto.
  - simpl in Hq. apply andb_prop in Hq. destruct Hq as [Hm Hq].
    destruct (update_msg_routable (set_mChannelMidiIn q s) m Hwf Hm)
      as (s1 & Hu & Hw1 & He1 & Hq1).
    destruct (IH s1 Hw1 Hq) as (s' & Hd & Hw' & He' & Hq').
    exists s'. simpl. unfold seqM. rewrite Hu. split; [exact Hd|].
    split; [exact Hw'|]. split; [rewrite He', He1; reflexivity|].
    rewrite Hq', Hq1. simpl. destruct q; reflexivity.
Qed.

(** X3. On a well-formed controller whose queue holds routable messages,
    [update()] returns with the queue empty; no encoder has changed (flags,
    handlers and subscriptions are as before) and the state is well formed
    again. *)
Theorem update_drains (s : Twister) :
  wf s = true ->
  forallb routable (mChannelMidiIn s) = true ->
  exists s',
    update s = Ok s' /\
    mChannelMidiIn s' = [] /\
    mEncoders s' = mEncoders s /\
    wf s' = true.
Proof.
  intros Hwf Hq. destruct (drain_ok (mChannelMidiIn s) s Hwf Hq) as (s' & Hd & Hw & He & Hq').
  exists s'. unfold update. split; [exact Hd|]. split; [|auto].
  rewrite Hq'. destruct (mChannelMidiIn s); reflexivity.
Qed.

Lemma ignorable_skip (s : Twister) (m : MidiCCMessage) :
  ignorable m = true -> update_msg m s = Ok s.
Proof.
  intros H. apply update_msg_skip. unfold ignorable in H.
  destruct (Z.eqb_spec (getCommand m) 11); [right|left; assumption].
  simpl in H.
  destruct (Z.eqb_spec (getChannel m) 0), (Z.eqb_spec (getChannel m) 1);
    try discriminate; auto.
Qed.

Lemma drain_ignorable (q : list MidiCCMessage) :
  forall s : Twister,
    forallb ignorable q = true ->
    drain q (set_mChannelMidiIn q s) = Ok (set_mChannelMidiIn [] s).
Proof.
  induction q as [|m q IH]; intros s Hq; [reflexivity|].
  simpl in Hq. apply andb_prop in Hq. destruct Hq as [Hm Hq].
  simpl. unfold seqM.
  change (set_mChannelMidiIn q (set_mChannelMidiIn (m :: q) s)) with (set_mChannelMidiIn q s).
  rewrite (ignorable_skip _ m Hm). apply IH. exact Hq.
Qed.

(** X4. Messages that are not control changes (command other than 0xB), or
    whose channel is neither 0 nor 1, are skipped: a queue of such messages
    is emptied by [update()] and nothing else changes (no parameter is
    written, nothing is sent, the pending low byte stays). *)
Theorem update_ignores (s : Twister) :
  forallb ignorable (mChannelMidiIn s) = true ->
  update s = Ok (set_mChannelMidiIn [] s).
Proof.
  intros H. unfold update.
  replace s with (set_mChannelMidiIn (mChannelMidiIn s) s) at 2 by (destruct s; reflexivity).
  apply drain_ignorable. exact H.
Qed.

(** *** The 14-bit value *)

Lemma split_merge (a b : Z) :
  0 <= a < 128 -> 0 <= b < 128 ->
  Z.land (Z.shiftr (128 * a + b) 7) 0x7F = a /\ Z.land (128 * a + b) 0x7F = b.
Proof.
  intros Ha Hb. split.
  - rewrite Z.shiftr_div_pow2 by lia. change (2 ^ 7) with 128.
    change 0x7F with (Z.ones 7). rewrite Z.land_ones by lia. change (2 ^ 7) with 128.
    rewrite Z.add_comm, Z.mul_comm, Z.div_add by lia.
    rewrite Z.div_small by lia. apply Z.mod_small. lia.
  - change 0x7F with (Z.ones 7). rewrite Z.land_ones by lia. change (2 ^ 7) with 128.
    rewrite Z.add_comm, Z.mul_comm, Z.mod_add by lia. apply Z.mod_small. lia.
Qed.

Lemma lor_shift7 (a b : Z) :
  0 <= a < 128 -> 0 <= b < 128 -> Z.lor (Z.shiftl a 7) b = 128 * a + b.
Proof.
  intros Ha Hb.
  pose proof (merge_split (128 * a + b)) as H.
  destruct (split_merge a b Ha Hb) as [E1 E2].
  rewrite E1, E2 in H. rewrite H.
  change 0x3FFF with (Z.ones 14). rewrite Z.land_ones by lia.
  apply Z.mod_small. change (2 ^ 14) with 16384. lia.
Qed.

Lemma highRezVal_eq (msb lsb : Z) :
  highRezVal msb lsb = 128 * Z.land msb 0x7F + Z.land lsb 0x7F.
Proof.
  unfold highRezVal.
  pose proof (land127_bounds msb). pose proof (land127_bounds lsb).
  rewrite lor_shift7 by assumption.
  unfold uint16. apply Z.mod_small. lia.
Qed.

(** X5. Whatever two bytes arrive, the value the rotary handler rebuilds lies
    in [0, 16383] (the top bit of each byte is dropped), and splitting it
    again gives back the low seven bits of each byte. *)
Theorem highRezVal_range (msb lsb : Z) :
  0 <= highRezVal msb lsb <= 16383 /\
  msb_of (highRezVal msb lsb) = Z.land msb 0x7F /\
  lsb_of (highRezVal msb lsb) = Z.land lsb 0x7F.
Proof.
  pose proof (land127_bounds msb) as Ha. pose proof (land127_bounds lsb) as Hb.
  rewrite msb_of_eq, lsb_of_eq, highRezVal_eq.
  destruct (split_merge _ _ Ha Hb) as [E1 E2].
  split; [lia | split; assumption].
Qed.

Lemma land_shiftr_mod (v : Z) :
  Z.land (Z.shiftr (v mod 16384) 7) 0x7F = Z.land (Z.shiftr v 7) 0x7F /\
  Z.land (v mod 16384) 0x7F = Z.land v 0x7F.
Proof.
  change 16384 with (2 ^ 14). rewrite <- Z.land_ones by lia.
  change 0x7F with (Z.ones 7).
  split; apply Z.bits_inj'; intros n Hn.
  - rewrite !Z.land_spec, !Z.shiftr_spec, Z.land_spec by lia.
    rewrite !Z.testbit_ones_nonneg by lia.
    destruct (Z.ltb_spec n 7); [|rewrite !andb_false_r; reflexivity].
    destruct (Z.ltb_spec (n + 7) 14); [|lia].
    rewrite !andb_true_r. reflexivity.
  - rewrite !Z.land_spec.
    rewrite !Z.testbit_ones_nonneg by lia.
    destruct (Z.ltb_spec n 7); [|rewrite !andb_false_r; reflexivity].
    destruct (Z.ltb_spec n 14); [|lia].
    rewrite !andb_true_r. reflexivity.
Qed.

(** X6. [setRotaryValue] and [setSwitchValue] send the low fourteen bits of
    their argument only: bits 14 and 15 of the [uint16_t] are dropped without
    a trace, so a value above 16383 wraps around. *)
Theorem set_value_wraps (v : Z) (e : Encoder) :
  setRotaryValue v e = setRotaryValue (v mod 16384) e /\
  setSwitchValue v e = setSwitchValue (v mod 16384) e.
Proof.
  destruct (land_shiftr_mod v) as [E1 E2].
  unfold setRotaryValue, setSwitchValue.
  rewrite !msb_of_eq, !lsb_of_eq, E1, E2. split; reflexivity.
Qed.

(** *** The state after a binding operation *)

Lemma setRotaryState_on_fst (e : Encoder) :
  fst (setRotaryState true false e) = set_rotaryEnabled true e.
Proof.
  unfold setRotaryState. destruct e as [o ps r sw t1 t2 h1 h2]. destruct r; reflexivity.
Qed.

Lemma setSwitchState_on_fst (e : Encoder) :
  fst (setSwitchState true false e) = set_switchEnabled true e.
Proof.
  unfold setSwitchState. destruct e as [o ps r sw t1 t2 h1 h2]. destruct sw; reflexivity.
Qed.

Lemma setRotaryState_on_snd (e : Encoder) :
  snd (setRotaryState true false e)
  = if rotaryEnabled e then [] else setEncoderPhenotype 0 e.
Proof. unfold setRotaryState. destruct (rotaryEnabled e); reflexivity. Qed.

Lemma setSwitchState_on_snd (e : Encoder) :
  snd (setSwitchState true false e)
  = if switchEnabled e then [] else setEncoderPhenotype 1 e.
Proof. unfold setSwitchState. destruct (switchEnabled e); reflexivity. Qed.

Lemma onEncoder_mk (i : nat) (f : Encoder -> Encoder * list Frame) (s : Twister) (e : Encoder) :
  mEncoders s !! i = Some e ->
  onEncoder i f s
  = Ok (mkTwister (mChannelMidiIn s) (<[i := fst (f e)]> (mEncoders s))
          (mHighResVelLowByte s) (params s) (nextToken s)
          (trace s ++ map Sent (snd (f e)))).
Proof. intros H. unfold onEncoder. rewrite H. destruct (f e). reflexivity. Qed.

Lemma sendFrom_mk (i : nat) (f : Encoder -> list Frame) (s : Twister) (e : Encoder) :
  mEncoders s !! i = Some e ->
  sendFrom i f s
  = Ok (mkTwister (mChannelMidiIn s) (mEncoders s) (mHighResVelLowByte s) (params s)
          (nextToken s) (trace s ++ map Sent (f e))).
Proof. intros H. unfold sendFrom. rewrite H. reflexivity. Qed.

Lemma subscribeRotary_mk (i : nat) (p : ParamId) (l : Listener) (s : Twister) (e : Encoder) :
  mEncoders s !! i = Some e ->
  subscribeRotary i p l s
  = Ok (mkTwister (mChannelMidiIn s)
          (<[i := set_mELRotaryParamChange (Some (p, nextToken s)) e]> (mEncoders s))
          (mHighResVelLowByte s)
          (release (mELRotaryParamChange e) (alter (subscribed (nextToken s) l) p (params s)))
          (S (nextToken s)) (trace s)).
Proof. intros H. unfold subscribeRotary. rewrite H. reflexivity. Qed.

Lemma subscribeSwitch_mk (i : nat) (p : ParamId) (l : Listener) (s : Twister) (e : Encoder) :
  mEncoders s !! i = Some e ->
  subscribeSwitch i p l s
  = Ok (mkTwister (mChannelMidiIn s)
          (<[i := set_mELSwitchParamChange (Some (p, nextToken s)) e]> (mEncoders s))
          (mHighResVelLowByte s)
          (release (mELSwitchParamChange e) (alter (subscribed (nextToken s) l) p (params s)))
          (S (nextToken s)) (trace s)).
Proof. intros H. unfold subscribeSwitch. rewrite H. reflexivity. Qed.

Lemma unsubscribeRotary_mk (i : nat) (s : Twister) (e : Encoder) :
  mEncoders s !! i = Some e ->
  unsubscribeRotary i s
  = Ok (mkTwister (mChannelMidiIn s)
          (<[i := set_mELRotaryParamChange None e]> (mEncoders s))
          (mHighResVelLowByte s) (release (mELRotaryParamChange e) (params s))
          (nextToken s) (trace s)).
Proof. intros H. unfold unsubscribeRotary. rewrite H. reflexivity. Qed.

Lemma unsubscribeSwitch_mk (i : nat) (s : Twister) (e : Encoder) :
  mEncoders s !! i = Some e ->
  unsubscribeSwitch i s
  = Ok (mkTwister (mChannelMidiIn s)
          (<[i := set_mELSwitchParamChange None e]> (mEncoders s))
          (mHighResVelLowByte s) (release (mELSwitchParamChange e) (params s))
          (nextToken s) (trace s)).
Proof. intros H. unfold unsubscribeSwitch. rewrite H. reflexivity. Qed.

Ltac proj_state :=
  cbn [mChannelMidiIn mEncoders mHighResVelLowByte params nextToken trace fst snd].

Ltac lookup_same He := proj_state; eapply lookup_insert_same; exact He.

Lemma setParamE_float_state (s : Twister) (idx : nat) (e : Encoder) (p : ParamId)
      (v mn mx : float) (ev : list (nat * Listener)) :
  mEncoders s !! idx = Some e ->
  params s !! p = Some (mkParam (PFloat v mn mx) ev) ->
  setParamE_float idx p s
  = Ok (mkTwister (mChannelMidiIn s)
          (<[idx := bound_float p mn mx (p, nextToken s) e]> (mEncoders s))
          (mHighResVelLowByte s)
          (release (mELRotaryParamChange e)
             (alter (subscribed (nextToken s) (RotaryFloatL idx mn mx)) p (params s)))
          (S (nextToken s))
          (trace s
           ++ map Sent ((if rotaryEnabled e then [] else setEncoderPhenotype 0 e)
                        ++ setRotaryValue (uint16 (ofMap_float_to_hw v mn mx))
                             (set_rotaryEnabled true e)))).
Proof.
  intros He Hp. unfold setParamE_float. rewrite Hp.
  unfold seqM. rewrite (onEncoder_mk _ _ _ _ He).
  rewrite setRotaryState_on_fst, setRotaryState_on_snd.
  rewrite (sendFrom_mk idx _ _ (set_rotaryEnabled true e)) by lookup_same He.
  proj_state.
  rewrite (onEncoder_mk idx _ _ (set_rotaryEnabled true e)) by lookup_same He.
  proj_state. rewrite list_insert_insert_eq.
  rewrite (subscribeRotary_mk idx p _ _
             (set_updateRotaryParam (Some (RotaryFloatH p mn mx)) (set_rotaryEnabled true e)))
    by lookup_same He.
  proj_state.
  rewrite list_insert_insert_eq, app_nil_r, <- app_assoc, <- map_app.
  reflexivity.
Qed.

Lemma setParamE_int_state (s : Twister) (idx : nat) (e : Encoder) (p : ParamId)
      (v mn mx : Z) (ev : list (nat * Listener)) :
  mEncoders s !! idx = Some e ->
  params s !! p = Some (mkParam (PInt v mn mx) ev) ->
  setParamE_int idx p s
  = Ok (mkTwister (mChannelMidiIn s)
          (<[idx := bound_int p mn mx (p, nextToken s) e]> (mEncoders s))
          (mHighResVelLowByte s)
          (release (mELRotaryParamChange e)
             (alter (subscribed (nextToken s) (RotaryIntL idx mn mx)) p (params s)))
          (S (nextToken s))
          (trace s
           ++ map Sent ((if rotaryEnabled e then [] else setEncoderPhenotype 0 e)
                        ++ setRotaryValue (uint16 (ofMap_int_to_hw v mn mx))
                             (set_rotaryEnabled true e)))).
Proof.
  intros He Hp. unfold setParamE_int. rewrite Hp.
  unfold seqM. rewrite (onEncoder_mk _ _ _ _ He).
  rewrite setRotaryState_on_fst, setRotaryState_on_snd.
  rewrite (sendFrom_mk idx _ _ (set_rotaryEnabled true e)) by lookup_same He.
  proj_state.
  rewrite (onEncoder_mk idx _ _ (set_rotaryEnabled true e)) by lookup_same He.
  proj_state. rewrite list_insert_insert_eq.
  rewrite (subscribeRotary_mk idx p _ _
             (set_updateRotaryParam (Some (RotaryIntH p mn mx)) (set_rotaryEnabled true e)))
    by lookup_same He.
  proj_state.
  rewrite list_insert_insert_eq, app_nil_r, <- app_assoc, <- map_app.
  reflexivity.
Qed.

Lemma setParamE_bool_state (s : Twister) (idx : nat) (e : Encoder) (p : ParamId)
      (b : bool) (ev : list (nat * Listener)) :
  mEncoders s !! idx = Some e ->
  params s !! p = Some (mkParam (PBool b) ev) ->
  setParamE_bool idx p s
  = Ok (mkTwister (mChannelMidiIn s)
          (<[idx := bound_bool p (p, nextToken s) e]> (mEncoders s))
          (mHighResVelLowByte s)
          (release (mELSwitchParamChange e)
             (alter (subscribed (nextToken s) (SwitchL idx)) p (params s)))
          (S (nextToken s))
          (trace s
           ++ map Sent ((if switchEnabled e then [] else setEncoderPhenotype 1 e)
                        ++ setSwitchValue (if b then TW_MAX_ENCODER_VALUE else 0)
                             (set_switchEnabled true e)))).
Proof.
  intros He Hp. unfold setParamE_bool. rewrite Hp.
  unfold seqM. rewrite (onEncoder_mk _ _ _ _ He).
  rewrite setSwitchState_on_fst, setSwitchState_on_snd.
  rewrite (sendFrom_mk idx _ _ (set_switchEnabled true e)) by lookup_same He.
  proj_state.
  rewrite (onEncoder_mk idx _ _ (set_switchEnabled true e)) by lookup_same He.
  proj_state. rewrite list_insert_insert_eq.
  rewrite (subscribeSwitch_mk idx p _ _
             (set_updateSwitchParam (Some (SwitchBoolH p)) (set_switchEnabled true e)))
    by lookup_same He.
  proj_state.
  rewrite list_insert_insert_eq, app_nil_r, <- app_assoc, <- map_app.
  reflexivity.
Qed.

Lemma clear_encoder (force_ : bool) (e : Encoder) :
  set_mELSwitchParamChange None
    (fst (setSwitchState false force_
            (set_mELRotaryParamChange None (fst (setRotaryState false force_ e)))))
  = cleared e.
Proof.
  unfold setSwitchState, setRotaryState, cleared.
  destruct e as [o ps r sw t1 t2 h1 h2]. destruct force_, r, sw; reflexivity.
Qed.

Lemma clear_frames_eq (force_ : bool) (e : Encoder) :
  snd (setRotaryState false force_ e)
  ++ snd (setSwitchState false force_
            (set_mELRotaryParamChange None (fst (setRotaryState false force_ e))))
  = clear_frames force_ e.
Proof.
  unfold setSwitchState, setRotaryState, clear_frames, forced_clear_frames,
    unforced_clear_frames, setEncoderPhenotype.
  destruct e as [o ps r sw t1 t2 h1 h2]. destruct force_, r, sw, o; reflexivity.
Qed.

Lemma clearParamE_state (s : Twister) (i : nat) (e : Encoder) (force_ : bool) :
  mEncoders s !! i = Some e ->
  clearParamE i force_ s
  = Ok (mkTwister (mChannelMidiIn s) (<[i := cleared e]> (mEncoders s))
          (mHighResVelLowByte s)
          (release (mELSwitchParamChange e) (release (mELRotaryParamChange e) (params s)))
          (nextToken s)
          (trace s ++ map Sent (clear_frames force_ e))).
Proof.
  intros He. unfold clearParamE, seqM.
  rewrite (onEncoder_mk _ _ _ _ He).
  set (e1 := fst (setRotaryState false force_ e)).
  rewrite (unsubscribeRotary_mk i _ e1) by lookup_same He.
  proj_state. rewrite list_insert_insert_eq.
  set (e2 := set_mELRotaryParamChange None e1).
  rewrite (onEncoder_mk i _ _ e2) by lookup_same He.
  proj_state. rewrite list_insert_insert_eq.
  set (e3 := fst (setSwitchState false force_ e2)).
  rewrite (unsubscribeSwitch_mk i _ e3) by lookup_same He.
  proj_state. rewrite list_insert_insert_eq.
  rewrite <- app_assoc, <- map_app.
  assert (Ht1 : mELRotaryParamChange e1 = mELRotaryParamChange e).
  { subst e1. unfold setRotaryState. destruct (_ && _); reflexivity. }
  assert (Ht3 : mELSwitchParamChange e3 = mELSwitchParamChange e).
  { subst e3 e2 e1. unfold setSwitchState, setRotaryState.
    destruct e as [o ps r sw t1 t2 h1 h2]. destruct force_, r, sw; reflexivity. }
  rewrite Ht1, Ht3.
  subst e3 e2 e1. rewrite clear_encoder, clear_frames_eq. reflexivity.
Qed.

(** *** Well-formedness is kept by every binding operation *)

Lemma forallb_alter {A : Type} (f : A -> bool) (g : A -> A) (l : list A) (i : nat) :
  forallb f l = true ->
  (forall x, l !! i = Some x -> f (g x) = true) ->
  forallb f (alter g i l) = true.
Proof.
  revert i. induction l as [|y l IH]; intros i Hl Hg; [exact Hl|].
  simpl in Hl. apply andb_prop in Hl. destruct Hl as [Hy Hl].
  destruct i as [|i]; simpl.
  - rewrite (Hg y eq_refl), Hl. reflexivity.
  - rewrite Hy. simpl. apply IH; [exact Hl|]. intros x Hx. apply Hg. exact Hx.
Qed.

Lemma event_ok_filter (n : nat) (v : ParamValue) (id : nat) (ev : list (nat * Listener)) :
  event_ok n v ev = true ->
  event_ok n v (filter (fun x => fst x <> id) ev) = true.
Proof.
  unfold event_ok. induction ev as [|x ev IH]; intros H; [reflexivity|].
  simpl in H. apply andb_prop in H. destruct H as [Hx Hev].
  rewrite filter_cons. destruct (decide (fst x <> id)); simpl.
  - rewrite Hx. simpl. apply IH. exact Hev.
  - apply IH. exact Hev.
Qed.

Lemma event_ok_app (n : nat) (v : ParamValue) (ev : list (nat * Listener))
      (id : nat) (l : Listener) :
  event_ok n v ev = true ->
  listener_ok n v l = true ->
  event_ok n v (ev ++ [(id, l)]) = true.
Proof.
  unfold event_ok. intros Hev Hl. rewrite forallb_app, Hev. simpl. rewrite Hl. reflexivity.
Qed.

Lemma params_ok_release (n : nat) (t : option Token) (ps : list Param) :
  forallb (param_ok n) ps = true -> forallb (param_ok n) (release t ps) = true.
Proof.
  intros H. destruct t as [[p id]|]; simpl; [|exact H].
  apply forallb_alter; [exact H|].
  intros q Hq. unfold param_ok. simpl. apply event_ok_filter.
  apply (forallb_lookup _ _ _ _ H Hq).
Qed.

Lemma params_ok_subscribed (n : nat) (id : nat) (l : Listener) (p : ParamId) (ps : list Param) :
  forallb (param_ok n) ps = true ->
  (forall q, ps !! p = Some q -> listener_ok n (pval q) l = true) ->
  forallb (param_ok n) (alter (subscribed id l) p ps) = true.
Proof.
  intros H Hl. apply forallb_alter; [exact H|].
  intros q Hq. unfold param_ok, subscribed. simpl. apply event_ok_app.
  - apply (forallb_lookup _ _ _ _ H Hq).
  - apply Hl. exact Hq.
Qed.

Lemma pval_subscribed (id : nat) (l : Listener) (p : ParamId) (ps : list Param) :
  pval <$> alter (subscribed id l) p ps = pval <$> ps.
Proof. apply (pval_alter (fun q => pevent q ++ [(id, l)])). Qed.

Lemma pval_lookup (ps ps' : list Param) (p : nat) :
  pval <$> ps' = pval <$> ps -> pval <$> (ps' !! p) = pval <$> (ps !! p).
Proof. intros H. rewrite <- !list_lookup_fmap, H. reflexivity. Qed.

Lemma rotaryHandler_ok_pval (ps ps' : list Param) (h : RotaryHandler) :
  pval <$> ps' = pval <$> ps -> rotaryHandler_ok ps' h = rotaryHandler_ok ps h.
Proof.
  intros H. destruct h as [p a b | p a b]; simpl;
    pose proof (pval_lookup ps ps' p H) as Hp;
    destruct (ps' !! p) as [[v' ev']|], (ps !! p) as [[v ev]|]; simpl in Hp;
      try discriminate; try reflexivity; inversion Hp; subst; reflexivity.
Qed.

Lemma switchHandler_ok_pval (ps ps' : list Param) (h : SwitchHandler) :
  pval <$> ps' = pval <$> ps -> switchHandler_ok ps' h = switchHandler_ok ps h.
Proof.
  intros H. destruct h as [p]; simpl;
    pose proof (pval_lookup ps ps' p H) as Hp;
    destruct (ps' !! p) as [[v' ev']|], (ps !! p) as [[v ev]|]; simpl in Hp;
      try discriminate; try reflexivity; inversion Hp; subst; reflexivity.
Qed.

Lemma encoder_ok_pval (ps ps' : list Param) (e : Encoder) :
  pval <$> ps' = pval <$> ps -> encoder_ok ps' e = encoder_ok ps e.
Proof.
  intros H. unfold encoder_ok.
  destruct (updateRotaryParam e), (updateSwitchParam e);
    rewrite ?(rotaryHandler_ok_pval ps ps' _ H), ?(switchHandler_ok_pval ps ps' _ H);
    reflexivity.
Qed.

(** A state built from a well-formed one by replacing encoders whose
    handlers are valid and by changing the events of the parameters. *)
Lemma wf_rebuild (s : Twister) (q : list MidiCCMessage) (es' : list Encoder) (b : Z)
      (ps' : list Param) (n : nat) (tr : list Event) :
  length es' = 16%nat ->
  pval <$> ps' = pval <$> params s ->
  forallb (param_ok 16) ps' = true ->
  forallb (encoder_ok (params s)) es' = true ->
  wf (mkTwister q es' b ps' n tr) = true.
Proof.
  intros Hlen Hpv Hps Hes. apply wf_intro; simpl; [exact Hlen | exact Hps |].
  eapply forallb_impl; [|exact Hes].
  intros e He. rewrite (encoder_ok_pval _ _ e Hpv). exact He.
Qed.

Lemma pval_release2 (t1 t2 : option Token) (ps : list Param) :
  pval <$> release t1 (release t2 ps) = pval <$> ps.
Proof. rewrite !pval_release. reflexivity. Qed.

Lemma encoder_ok_flags (ps : list Param) (e e' : Encoder) :
  updateRotaryParam e' = updateRotaryParam e ->
  updateSwitchParam e' = updateSwitchParam e ->
  encoder_ok ps e' = encoder_ok ps e.
Proof. intros H1 H2. unfold encoder_ok. rewrite H1, H2. reflexivity. Qed.

Lemma setParamE_float_wf (s : Twister) (idx : nat) (p : ParamId)
      (v mn mx : float) (ev : list (nat * Listener)) :
  wf s = true ->
  (idx < 16)%nat ->
  params s !! p = Some (mkParam (PFloat v mn mx) ev) ->
  exists s', setParamE_float idx p s = Ok s' /\ wf s' = true /\
             pval <$> params s' = pval <$> params s /\
             mChannelMidiIn s' = mChannelMidiIn s.
Proof.
  intros Hwf Hidx Hp. destruct (wf_parts s Hwf) as (Hlen & Hps & Hes).
  destruct (lookup_lt_is_Some_2 (mEncoders s) idx ltac:(lia)) as [e He].
  rewrite (setParamE_float_state s idx e p v mn mx ev He Hp).
  eexists. split; [reflexivity|]. split.
  - apply (wf_rebuild s).
    + rewrite length_insert. exact Hlen.
    + rewrite pval_release, pval_subscribed. reflexivity.
    + apply params_ok_release, params_ok_subscribed; [exact Hps|].
      intros q Hq. rewrite Hp in Hq. inversion Hq. subst. simpl.
      apply Nat.ltb_lt. exact Hidx.
    + apply forallb_insert; [exact Hes|].
      pose proof (forallb_lookup _ _ _ _ Hes He) as Hok.
      unfold encoder_ok in *. simpl. rewrite Hp.
      apply andb_prop in Hok. destruct Hok as [_ Hsw]. exact Hsw.
  - simpl. rewrite pval_release, pval_subscribed. split; reflexivity.
Qed.

Lemma setParamE_int_wf (s : Twister) (idx : nat) (p : ParamId)
      (v mn mx : Z) (ev : list (nat * Listener)) :
  wf s = true ->
  (idx < 16)%nat ->
  params s !! p = Some (mkParam (PInt v mn mx) ev) ->
  exists s', setParamE_int idx p s = Ok s' /\ wf s' = true /\
             pval <$> params s' = pval <$> params s /\
             mChannelMidiIn s' = mChannelMidiIn s.
Proof.
  intros Hwf Hidx Hp. destruct (wf_parts s Hwf) as (Hlen & Hps & Hes).
  destruct (lookup_lt_is_Some_2 (mEncoders s) idx ltac:(lia)) as [e He].
  rewrite (setParamE_int_state s idx e p v mn mx ev He Hp).
  eexists. split; [reflexivity|]. split.
  - apply (wf_rebuild s).
    + rewrite length_insert. exact Hlen.
    + rewrite pval_release, pval_subscribed. reflexivity.
    + apply params_ok_release, params_ok_subscribed; [exact Hps|].
      intros q Hq. rewrite Hp in Hq. inversion Hq. subst. simpl.
      apply Nat.ltb_lt. exact Hidx.
    + apply forallb_insert; [exact Hes|].
      pose proof (forallb_lookup _ _ _ _ Hes He) as Hok.
      unfold encoder_ok in *. simpl. rewrite Hp.
      apply andb_prop in Hok. destruct Hok as [_ Hsw]. exact Hsw.
  - simpl. rewrite pval_release, pval_subscribed. split; reflexivity.
Qed.

Lemma setParamE_bool_wf (s : Twister) (idx : nat) (p : ParamId)
      (b : bool) (ev : list (nat * Listener)) :
  wf s = true ->
  (idx < 16)%nat ->
  params s !! p = Some (mkParam (PBool b) ev) ->
  exists s', setParamE_bool idx p s = Ok s' /\ wf s' = true /\
             pval <$> params s' = pval <$> params s /\
             mChannelMidiIn s' = mChannelMidiIn s.
Proof.
  intros Hwf Hidx Hp. destruct (wf_parts s Hwf) as (Hlen & Hps & Hes).
  destruct (lookup_lt_is_Some_2 (mEncoders s) idx ltac:(lia)) as [e He].
  rewrite (setParamE_bool_state s idx e p b ev He Hp).
  eexists. split; [reflexivity|]. split.
  - apply (wf_rebuild s).
    + rewrite length_insert. exact Hlen.
    + rewrite pval_release, pval_subscribed. reflexivity.
    + apply params_ok_release, params_ok_subscribed; [exact Hps|].
      intros q Hq. rewrite Hp in Hq. inversion Hq. subst. simpl.
      apply Nat.ltb_lt. exact Hidx.
    + apply forallb_insert; [exact Hes|].
      pose proof (forallb_lookup _ _ _ _ Hes He) as Hok.
      unfold encoder_ok in *. simpl. rewrite Hp.
      apply andb_prop in Hok. destruct Hok as [Hrot _]. rewrite Hrot. reflexivity.
  - simpl. rewrite pval_release, pval_subscribed. split; reflexivity.
Qed.

Lemma clearParamE_wf (s : Twister) (i : nat) (force_ : bool) :
  wf s = true ->
  (i < 16)%nat ->
  exists s', clearParamE i force_ s = Ok s' /\ wf s' = true /\
             pval <$> params s' = pval <$> params s /\
             mChannelMidiIn s' = mChannelMidiIn s.
Proof.
  intros Hwf Hidx. destruct (wf_parts s Hwf) as (Hlen & Hps & Hes).
  destruct (lookup_lt_is_Some_2 (mEncoders s) i ltac:(lia)) as [e He].
  rewrite (clearParamE_state s i e force_ He).
  eexists. split; [reflexivity|]. split.
  - apply (wf_rebuild s).
    + rewrite length_insert. exact Hlen.
    + apply pval_release2.
    + apply params_ok_release, params_ok_release. exact Hps.
    + apply forallb_insert; [exact Hes|].
      rewrite (encoder_ok_flags _ e (cleared e)) by reflexivity.
      apply (forallb_lookup _ _ _ _ Hes He).
  - simpl. split; [apply pval_release2 | reflexivity].
Qed.

(** X7. The single-slot operations keep the controller well formed, for
    every index: [setParam] with a live parameter of the overload's type and
    [clearParam] return, and the state they leave is well formed. *)
Theorem bindings_keep_wf (s : Twister) (idx : nat) (p : ParamId) (force_ : bool) :
  wf s = true ->
  (forall v mn mx ev,
      params s !! p = Some (mkParam (PFloat v mn mx) ev) ->
      exists s', setParam_float idx p s = Ok s' /\ wf s' = true) /\
  (forall v mn mx ev,
      params s !! p = Some (mkParam (PInt v mn mx) ev) ->
      exists s', setParam_int idx p s = Ok s' /\ wf s' = true) /\
  (forall b ev,
      params s !! p = Some (mkParam (PBool b) ev) ->
      exists s', setParam_bool idx p s = Ok s' /\ wf s' = true) /\
  (exists s', clearParam idx force_ s = Ok s' /\ wf s' = true).
Proof.
  intros Hwf. destruct (wf_parts s Hwf) as (Hlen & _ & _).
  unfold setParam_float, setParam_int, setParam_bool, clearParam. rewrite Hlen.
  destruct (Nat.ltb_spec idx 16) as [Hlt|Hge].
  - repeat split.
    + intros v mn mx ev Hp.
      destruct (setParamE_float_wf s idx p v mn mx ev Hwf Hlt Hp) as (s' & E & W & _). eauto.
    + intros v mn mx ev Hp.
      destruct (setParamE_int_wf s idx p v mn mx ev Hwf Hlt Hp) as (s' & E & W & _). eauto.
    + intros b ev Hp.
      destruct (setParamE_bool_wf s idx p b ev Hwf Hlt Hp) as (s' & E & W & _). eauto.
    + destruct (clearParamE_wf s idx force_ Hwf Hlt) as (s' & E & W & _). eauto.
  - repeat split; intros; eauto.
Qed.

(** *** [setParams] and [clear] as a whole *)

Lemma setState_handlers (e : Encoder) (a b : bool) :
  updateRotaryParam (fst (setRotaryState a b e)) = updateRotaryParam e /\
  updateSwitchParam (fst (setRotaryState a b e)) = updateSwitchParam e /\
  updateRotaryParam (fst (setSwitchState a b e)) = updateRotaryParam e /\
  updateSwitchParam (fst (setSwitchState a b e)) = updateSwitchParam e.
Proof.
  unfold setRotaryState, setSwitchState.
  destruct (_ && _), (_ && _); repeat split; reflexivity.
Qed.

Lemma onEncoder_flags_wf (s : Twister) (i : nat) (f : Encoder -> Encoder * list Frame) :
  (forall e, updateRotaryParam (fst (f e)) = updateRotaryParam e /\
             updateSwitchParam (fst (f e)) = updateSwitchParam e) ->
  wf s = true ->
  (i < 16)%nat ->
  exists s', onEncoder i f s = Ok s' /\ wf s' = true /\
             pval <$> params s' = pval <$> params s /\
             mChannelMidiIn s' = mChannelMidiIn s.
Proof.
  intros Hf Hwf Hi. destruct (wf_parts s Hwf) as (Hlen & Hps & Hes).
  destruct (lookup_lt_is_Some_2 (mEncoders s) i ltac:(lia)) as [e He].
  rewrite (onEncoder_mk _ _ _ _ He). eexists. split; [reflexivity|].
  split; [|split; reflexivity].
  apply (wf_rebuild s); [rewrite length_insert; exact Hlen | reflexivity | exact Hps |].
  apply forallb_insert; [exact Hes|].
  destruct (Hf e) as [H1 H2]. rewrite (encoder_ok_flags _ e _ H1 H2).
  apply (forallb_lookup _ _ _ _ Hes He).
Qed.

Lemma setParams_body_wf (s : Twister) (j : nat) (it : option ParamId) :
  wf s = true ->
  (j < 16)%nat ->
  (forall p, it = Some p -> (p < length (params s))%nat) ->
  exists s', setParams_body j it s = Ok s' /\ wf s' = true /\
             pval <$> params s' = pval <$> params s /\
             mChannelMidiIn s' = mChannelMidiIn s.
Proof.
  intros Hwf Hj Hit. destruct it as [p|]; simpl.
  - destruct (lookup_lt_is_Some_2 _ _ (Hit p eq_refl)) as [[pv ev] Hp]. rewrite Hp.
    destruct pv as [v mn mx | v mn mx | b |].
    + eapply setParamE_float_wf; eassumption.
    + eapply setParamE_int_wf; eassumption.
    + eapply setParamE_bool_wf; eassumption.
    + apply clearParamE_wf; assumption.
  - unfold seqM.
    destruct (onEncoder_flags_wf s j (setRotaryState false true)) as (s1 & E1 & W1 & P1 & Q1);
      [intros e; split; apply setState_handlers | exact Hwf | exact Hj |].
    rewrite E1.
    destruct (onEncoder_flags_wf s1 j (setSwitchState false true)) as (s2 & E2 & W2 & P2 & Q2);
      [intros e; split; apply setState_handlers | exact W1 | exact Hj |].
    exists s2. split; [exact E2|]. split; [exact W2|].
    split; congruence.
Qed.

Lemma pval_length (ps ps' : list Param) :
  pval <$> ps' = pval <$> ps -> length ps' = length ps.
Proof. intros H. apply (f_equal length) in H. rewrite !length_fmap in H. exact H. Qed.

Lemma setParams_loop_wf (slots : list nat) :
  forall (it : list ParamId) (s : Twister),
    wf s = true ->
    Forall (fun j => (j < 16)%nat) slots ->
    Forall (fun p => (p < length (params s))%nat) it ->
    exists s', setParams_loop slots it s = Ok s' /\ wf s' = true /\
               pval <$> params s' = pval <$> params s /\
               mChannelMidiIn s' = mChannelMidiIn s.
Proof.
  induction slots as [|j slots IH]; intros it s Hwf Hlt Hit.
  - exists s. auto.
  - inversion Hlt as [|? ? Hj Hlt']. subst.
    assert (Hstep : forall o it',
               (forall p, o = Some p -> (p < length (params s))%nat) ->
               Forall (fun p => (p < length (params s))%nat) it' ->
               exists s', seqM (setParams_body j o) (setParams_loop slots it') s = Ok s' /\
                          wf s' = true /\
                          pval <$> params s' = pval <$> params s /\
                          mChannelMidiIn s' = mChannelMidiIn s).
    { intros o it' Ho Hit'.
      destruct (setParams_body_wf s j o Hwf Hj Ho) as (s1 & E1 & W1 & P1 & Q1).
      destruct (IH it' s1 W1 Hlt') as (s2 & E2 & W2 & P2 & Q2).
      { rewrite (pval_length _ _ P1). exact Hit'. }
      exists s2. unfold seqM. rewrite E1. split; [exact E2|]. split; [exact W2|].
      split; congruence. }
    destruct it as [|p it].
    + apply (Hstep None []); [discriminate | constructor].
    + inversion Hit as [|? ? Hp Hit']. subst.
      apply (Hstep (Some p) it); [intros ? [= <-]; exact Hp | exact Hit'].
Qed.

(** X8. On a well-formed controller, [setParams] with a group of live
    parameters returns, whatever the types and the number of the parameters,
    and leaves the controller well formed; the values of the parameters and
    the inbound queue are untouched. *)
Theorem setParams_keeps_wf (s : Twister) (group : list ParamId) :
  wf s = true ->
  Forall (fun p => (p < length (params s))%nat) group ->
  exists s',
    setParams group s = Ok s' /\
    wf s' = true /\
    pval <$> params s' = pval <$> params s /\
    mChannelMidiIn s' = mChannelMidiIn s.
Proof.
  intros Hwf Hg. destruct (wf_parts s Hwf) as (Hlen & _ & _).
  unfold setParams. rewrite Hlen. apply setParams_loop_wf; [exact Hwf | | exact Hg].
  apply Forall_forall. intros j Hj. apply elem_of_seq in Hj. lia.
Qed.

(** X9. A whole cycle: after [setParams] with live parameters, [update()] on
    routable messages returns with the queue empty.  No binding made by
    [setParams] can make the routing loop fail. *)
Theorem setParams_then_update (s : Twister) (group : list ParamId) :
  wf s = true ->
  Forall (fun p => (p < length (params s))%nat) group ->
  forallb routable (mChannelMidiIn s) = true ->
  exists s1 s2,
    setParams group s = Ok s1 /\
    update s1 = Ok s2 /\
    mChannelMidiIn s2 = [] /\
    mEncoders s2 = mEncoders s1 /\
    wf s2 = true.
Proof.
  intros Hwf Hg Hq.
  destruct (wf_parts s Hwf) as (Hlen & _ & _).
  destruct (setParams_loop_wf (seq 0 16) group s Hwf) as (s1 & E1 & W1 & _ & Q1);
    [apply Forall_forall; intros j Hj; apply elem_of_seq in Hj; lia | exact Hg |].
  destruct (drain_ok (mChannelMidiIn s1) s1 W1) as (s2 & E2 & W2 & M2 & Q2).
  { rewrite Q1. exact Hq. }
  exists s1, s2. unfold setParams, update. rewrite Hlen.
  split; [exact E1|]. split; [exact E2|]. split; [|auto].
  rewrite Q2. destruct (mChannelMidiIn s1); reflexivity.
Qed.

(** *** [setup()] *)

(** X10. [setup()] gives every encoder its index as position and the output
    of the controller, and changes nothing else in it.  On a new controller
    that makes sixteen encoders, encoder [i] at position [i], all disabled
    with no handler and no subscription. *)
Theorem setup_slots (midiOut : bool) (s : Twister) (ps : list Param) :
  length (mEncoders (setup midiOut s)) = length (mEncoders s) /\
  (forall (i : nat) (e : Encoder),
      mEncoders s !! i = Some e ->
      (i < 256)%nat ->
      mEncoders (setup midiOut s) !! i
      = Some (mkEncoder midiOut (Z.of_nat i) (rotaryEnabled e) (switchEnabled e)
                        (mELSwitchParamChange e) (mELRotaryParamChange e)
                        (updateSwitchParam e) (updateRotaryParam e))) /\
  length (mEncoders (setup midiOut (Twister_new ps))) = 16%nat /\
  (forall i : nat,
      (i < 16)%nat ->
      mEncoders (setup midiOut (Twister_new ps)) !! i
      = Some (mkEncoder midiOut (Z.of_nat i) false false None None None None)) /\
  wf (setup midiOut (Twister_new ps)) = forallb (param_ok 16) ps.
Proof.
  split. { unfold setup. simpl. apply length_imap. }
  split.
  { intros i e He Hi. unfold setup. simpl. rewrite list_lookup_imap, He. simpl.
    rewrite uint8_small by lia. reflexivity. }
  split; [reflexivity|]. split.
  - intros i Hi.
    do 16 (destruct i as [|i]; [reflexivity|]). lia.
  - unfold wf. simpl. rewrite andb_true_r. reflexivity.
Qed.

(** *** Slot indices past the array *)

(** X11. With an index of 16 or more (past the array), every per-slot entry
    point returns without any effect: no binding, no frame, no state change. *)
Theorem slot_out_of_range (s : Twister) (idx : nat) (p : ParamId) (force_ : bool)
        (x : float) (anim : Animation) (rate : Z) :
  (length (mEncoders s) <= idx)%nat ->
  setParam_float idx p s = Ok s /\
  setParam_int idx p s = Ok s /\
  setParam_bool idx p s = Ok s /\
  clearParam idx force_ s = Ok s /\
  setHueRGB idx x s = Ok s /\
  setBrightnessRGB idx x s = Ok s /\
  setBrightnessRotary idx x s = Ok s /\
  setAnimationRGB idx anim rate s = Ok s /\
  setAnimationRotary idx anim rate s = Ok s.
Proof.
  intros H.
  assert (E : (idx <? length (mEncoders s))%nat = false) by (apply Nat.ltb_ge; exact H).
  unfold setParam_float, setParam_int, setParam_bool, clearParam, setHueRGB,
    setBrightnessRGB, setBrightnessRotary, setAnimationRGB, setAnimationRotary.
  rewrite E. simpl. repeat split; reflexivity.
Qed.

(** *** [setParams]: the size of the group *)

Lemma setParams_loop_take (slots : list nat) :
  forall (it : list ParamId) (s : Twister),
    setParams_loop slots it s = setParams_loop slots (take (length slots) it) s.
Proof.
  induction slots as [|j slots IH]; intros it s; [reflexivity|].
  destruct it as [|p it]; [reflexivity|].
  change (setParams_loop (j :: slots) (p :: it) s)
    with (seqM (setParams_body j (Some p)) (setParams_loop slots it) s).
  change (setParams_loop (j :: slots) (take (length (j :: slots)) (p :: it)) s)
    with (seqM (setParams_body j (Some p))
            (setParams_loop slots (take (length slots) it)) s).
  apply seqM_ext. intros s1. apply IH.
Qed.

(** X12. [setParams] reads the first sixteen parameters of the group only: the
    parameters after the sixteenth are never looked at. *)
Theorem setParams_first_sixteen (s : Twister) (group : list ParamId) :
  length (mEncoders s) = 16%nat ->
  setParams group s = setParams (take 16 group) s.
Proof.
  intros Hlen. unfold setParams. rewrite Hlen.
  rewrite (setParams_loop_take (seq 0 16) group s). reflexivity.
Qed.

(** *** What a binding sends when it is made *)

(** X13. Binding a bool parameter to a slot with an output sends the phenotype
    change [0xB4, pos, 1] unless the switch was already enabled, then one
    switch frame [0xB1, pos, 127] for [true] or [0xB1, pos, 0] for [false]:
    the fourteen-bit maximum goes out as its seven high bits, with no
    high-resolution prefix. *)
Theorem setParam_bool_push (s : Twister) (idx : nat) (e : Encoder) (p : ParamId)
        (b : bool) (ev : list (nat * Listener)) :
  mEncoders s !! idx = Some e ->
  mMidiOut e = true ->
  params s !! p = Some (mkParam (PBool b) ev) ->
  exists s',
    setParam_bool idx p s = Ok s' /\
    trace s'
    = trace s
      ++ map Sent ((if switchEnabled e then [] else [[0xB4; pos e; 1]])
                   ++ [[0xB1; pos e; if b then 127 else 0]]).
Proof.
  intros He Hout Hp.
  assert (Hidx : (idx <? length (mEncoders s))%nat = true).
  { apply Nat.ltb_lt. eapply lookup_lt_Some. exact He. }
  unfold setParam_bool. rewrite Hidx.
  rewrite (setParamE_bool_state s idx e p b ev He Hp).
  eexists. split; [reflexivity|]. simpl.
  unfold setEncoderPhenotype, setSwitchValue, sendToSwitch. simpl. rewrite Hout.
  destruct b; reflexivity.
Qed.

(** X14. Binding a float parameter to a slot with an output sends the
    phenotype change [0xB4, pos, 0] unless the rotary was already enabled,
    then the current value of the parameter, rescaled, as a prefix frame and
    a value frame. *)
Theorem setParam_float_push (s : Twister) (idx : nat) (e : Encoder) (p : ParamId)
        (v mn mx : float) (ev : list (nat * Listener)) :
  mEncoders s !! idx = Some e ->
  mMidiOut e = true ->
  params s !! p = Some (mkParam (PFloat v mn mx) ev) ->
  exists s',
    setParam_float idx p s = Ok s' /\
    trace s'
    = trace s
      ++ map Sent ((if rotaryEnabled e then [] else [[0xB4; pos e; 0]])
                   ++ [[0xB0; 0x58; Z.land (uint16 (ofMap_float_to_hw v mn mx)) 0x7F];
                       [0xB0; pos e;
                        Z.land (Z.shiftr (uint16 (ofMap_float_to_hw v mn mx)) 7) 0x7F]]).
Proof.
  intros He Hout Hp.
  assert (Hidx : (idx <? length (mEncoders s))%nat = true).
  { apply Nat.ltb_lt. eapply lookup_lt_Some. exact He. }
  unfold setParam_float. rewrite Hidx.
  rewrite (setParamE_float_state s idx e p v mn mx ev He Hp).
  eexists. split; [reflexivity|]. simpl.
  unfold setEncoderPhenotype, setRotaryValue, sendToRotary. simpl. rewrite Hout.
  rewrite msb_of_eq, lsb_of_eq. reflexivity.
Qed.

(** *** Unbinding *)

(** X15. After [clearParam] on a slot, inbound messages for the slot write no
    parameter, although the handlers stay installed in the encoder: a rotary
    message only resets the pending low byte, a switch message does
    nothing. *)
Theorem clear_stops_routing (s : Twister) (i : nat) (e : Encoder) (force_ : bool) :
  mEncoders s !! i = Some e ->
  (i < 16)%nat ->
  exists s1,
    clearParam i force_ s = Ok s1 /\
    mEncoders s1 !! i = Some (cleared e) /\
    updateRotaryParam (cleared e) = updateRotaryParam e /\
    updateSwitchParam (cleared e) = updateSwitchParam e /\
    forall x,
      update_msg (mkMsg 0xB0 (Z.of_nat i) x) s1 = Ok (set_mHighResVelLowByte 0 s1) /\
      update_msg (mkMsg 0xB1 (Z.of_nat i) x) s1 = Ok s1.
Proof.
  intros He Hi.
  pose proof (lookup_lt_Some _ _ _ He) as Hlt.
  unfold clearParam. destruct (Nat.ltb_spec i (length (mEncoders s))); [|lia].
  rewrite (clearParamE_state s i e force_ He).
  eexists. split; [reflexivity|].
  assert (Hl : <[i := cleared e]> (mEncoders s) !! i = Some (cleared e))
    by (eapply lookup_insert_same; exact He).
  split; [exact Hl|]. split; [reflexivity|]. split; [reflexivity|].
  intros x. unfold update_msg.
  change (getCommand (mkMsg 0xB0 (Z.of_nat i) x)) with 11.
  change (getChannel (mkMsg 0xB0 (Z.of_nat i) x)) with 0.
  change (getCommand (mkMsg 0xB1 (Z.of_nat i) x)) with 11.
  change (getChannel (mkMsg 0xB1 (Z.of_nat i) x)) with 1.
  cbn [controller value mEncoders]. simpl (11 =? 11). simpl (0 =? 0). simpl (1 =? 0).
  simpl (1 =? 1). cbv iota.
  destruct (Z.eqb_spec (Z.of_nat i) 88); [lia|].
  rewrite uint8_small by lia. rewrite Nat2Z.id, length_insert.
  destruct (Nat.ltb_spec i (length (mEncoders s))); [|lia].
  rewrite Hl. split; reflexivity.
Qed.

Lemma alter_alter_id {A : Type} (f g : A -> A) (l : list A) (i : nat) (x : A) :
  l !! i = Some x -> g (f x) = x -> alter g i (alter f i l) = l.
Proof.
  revert i. induction l as [|y l IH]; intros i Hi Hx; [reflexivity|].
  destruct i as [|i]; simpl in *.
  - inversion Hi. subst. rewrite Hx. reflexivity.
  - f_equal. apply IH; assumption.
Qed.

Lemma filter_fresh (n : nat) (ev : list (nat * Listener)) (l : Listener) :
  fresh_event n ev = true ->
  filter (fun x => fst x <> n) (ev ++ [(n, l)]) = ev.
Proof.
  unfold fresh_event. induction ev as [|x ev IH]; intros H; simpl.
  - rewrite filter_cons. simpl. destruct (decide (n <> n)); [congruence | reflexivity].
  - simpl in H. apply andb_prop in H. destruct H as [Hx Hev].
    apply Nat.ltb_lt in Hx.
    rewrite filter_cons. destruct (decide (fst x <> n)); [|lia].
    f_equal. apply IH. exact Hev.
Qed.

(** X16. Binding a float parameter to an unbound slot and clearing the slot
    again gives the parameters back as they were: the function the binding
    registered is removed, and nothing else.  The slot ends disabled with no
    subscription; the handler the binding installed stays in the encoder. *)
Theorem bind_unbind (s : Twister) (idx : nat) (e : Encoder) (p : ParamId)
        (v mn mx : float) (ev : list (nat * Listener)) (force_ : bool) :
  mEncoders s !! idx = Some e ->
  mELRotaryParamChange e = None ->
  mELSwitchParamChange e = None ->
  params s !! p = Some (mkParam (PFloat v mn mx) ev) ->
  fresh_event (nextToken s) ev = true ->
  exists s1 s2,
    setParam_float idx p s = Ok s1 /\
    clearParam idx force_ s1 = Ok s2 /\
    params s2 = params s /\
    mEncoders s2 !! idx
    = Some (mkEncoder (mMidiOut e) (pos e) false false None None
                      (updateSwitchParam e) (Some (RotaryFloatH p mn mx))).
Proof.
  intros He Hrot Hsw Hp Hfresh.
  assert (Hidx : (idx <? length (mEncoders s))%nat = true).
  { apply Nat.ltb_lt. eapply lookup_lt_Some. exact He. }
  unfold setParam_float, clearParam. rewrite Hidx.
  rewrite (setParamE_float_state s idx e p v mn mx ev He Hp).
  eexists. eexists. split; [reflexivity|].
  proj_state. rewrite length_insert, Hidx.
  rewrite (clearParamE_state _ idx (bound_float p mn mx (p, nextToken s) e))
    by lookup_same He.
  proj_state. split; [reflexivity|]. simpl.
  rewrite Hrot, Hsw. simpl. split.
  - apply (alter_alter_id _ _ _ _ _ Hp). simpl. rewrite filter_fresh by exact Hfresh.
    reflexivity.
  - rewrite list_insert_insert_eq. eapply lookup_insert_same. exact He.
Qed.

(** *** [setParams]: the slots past the end of the group *)



(** *** [clear()] *)

Lemma forEncoders_app (l1 l2 : list nat) (body : nat -> M) (s : Twister) :
  forEncoders (l1 ++ l2) body s = seqM (forEncoders l1 body) (forEncoders l2 body) s.
Proof.
  revert s. induction l1 as [|j l1 IH]; intros s; [reflexivity|].
  change (forEncoders ((j :: l1) ++ l2) body s)
    with (seqM (body j) (forEncoders (l1 ++ l2) body) s).
  change (forEncoders (j :: l1) body) with (seqM (body j) (forEncoders l1 body)).
  rewrite seqM_assoc. apply seqM_ext. exact IH.
Qed.

Lemma clear_loop_safe (i : nat) (slots : list nat) :
  forall s : Twister,
    Forall (fun j => j <> i) slots ->
    Forall (fun j => (j < length (mEncoders s))%nat) slots ->
    exists s', forEncoders slots (fun e => clearParamE e true) s = Ok s' /\
               others_kept i s s'.
Proof.
  induction slots as [|j slots IH]; intros s Hne Hlt.
  - exists s. split; [reflexivity | apply others_kept_refl].
  - inversion Hne as [|? ? Hj1 Hne']. inversion Hlt as [|? ? Hj2 Hlt']. subst.
    destruct (clearParamE_safe j i true Hj1 s Hj2) as (s1 & E1 & K1).
    pose proof K1 as (_ & L1 & _).
    destruct (IH s1 Hne') as (s2 & E2 & K2); [rewrite L1; exact Hlt'|].
    exists s2. simpl. unfold seqM. rewrite E1. split; [exact E2|].
    eapply others_kept_trans; eassumption.
Qed.

Lemma events_within_refl (ps : list Param) : events_within ps ps.
Proof. intros q par' H. eauto. Qed.

Lemma events_within_trans (ps1 ps2 ps3 : list Param) :
  events_within ps1 ps2 -> events_within ps2 ps3 -> events_within ps1 ps3.
Proof.
  intros H12 H23 q par3 H3.
  destruct (H23 q par3 H3) as (par2 & H2 & I2).
  destruct (H12 q par2 H2) as (par1 & H1 & I1).
  exists par1. split; [exact H1|]. auto.
Qed.

Lemma release_within (t : option Token) (ps : list Param) :
  events_within ps (release t ps).
Proof.
  destruct t as [[p id]|]; simpl; [|apply events_within_refl].
  intros q par' H. rewrite list_lookup_alter in H.
  destruct (decide (p = q)) as [-> | Hne].
  - destruct (ps !! q) as [par|] eqn:Hq; simpl in H; [|discriminate].
    inversion H. subst. exists par. split; [reflexivity|]. simpl.
    intros x Hx. apply list_elem_of_In in Hx. apply list_elem_of_filter in Hx.
    apply list_elem_of_In. apply Hx.
  - eauto.
Qed.

Lemma release_released (t : option Token) (ps : list Param) : released t (release t ps).
Proof.
  intros p id par x Ht Hp Hx. subst t. simpl in Hp.
  rewrite list_lookup_alter_eq in Hp.
  destruct (ps !! p) as [par0|]; simpl in Hp; [|discriminate].
  inversion Hp. subst. simpl in Hx.
  apply list_elem_of_In in Hx. apply list_elem_of_filter in Hx. apply Hx.
Qed.

Lemma released_within (t : option Token) (ps ps' : list Param) :
  released t ps -> events_within ps ps' -> released t ps'.
Proof.
  intros Hr Hw p id par' x Ht Hp Hx.
  destruct (Hw p par' Hp) as (par & Hq & Hin).
  eapply Hr; eauto.
Qed.

Lemma clear_loop_within (slots : list nat) :
  forall s s' : Twister,
    forEncoders slots (fun e => clearParamE e true) s = Ok s' ->
    events_within (params s) (params s').
Proof.
  induction slots as [|j slots IH]; intros s s' H.
  - inversion H. apply events_within_refl.
  - simpl in H. unfold seqM at 1 in H.
    destruct (mEncoders s !! j) as [e|] eqn:He.
    + rewrite (clearParamE_state s j e true He) in H.
      apply IH in H. simpl in H.
      eapply events_within_trans; [|exact H].
      eapply events_within_trans; apply release_within.
    + unfold clearParamE, seqM, onEncoder in H. rewrite He in H. discriminate.
Qed.

(** X18. [clear()] always returns.  Afterwards every encoder is disabled and
    holds no subscription, and the functions its two subscriptions stood for
    are registered with no parameter any more; the handlers stay in the
    encoders. *)
Theorem clear_all (s : Twister) :
  exists s',
    clear s = Ok s' /\
    (forall i e, mEncoders s !! i = Some e -> mEncoders s' !! i = Some (cleared e)) /\
    (forall i e,
        mEncoders s !! i = Some e ->
        released (mELRotaryParamChange e) (params s') /\
        released (mELSwitchParamChange e) (params s')).
Proof.
  set (n := length (mEncoders s)).
  destruct (clear_loop_safe n (seq 0 n) s) as (s' & E & _).
  { apply Forall_forall. intros j Hj. apply elem_of_seq in Hj. lia. }
  { apply Forall_forall. intros j Hj. apply elem_of_seq in Hj. fold n. lia. }
  exists s'. split; [exact E|].
  assert (Hsplit : forall i e,
             mEncoders s !! i = Some e ->
             exists s1 s2,
               forEncoders (seq 0 i) (fun e => clearParamE e true) s = Ok s1 /\
               mEncoders s1 !! i = Some e /\
               clearParamE i true s1 = Ok s2 /\
               forEncoders (seq (S i) (n - S i)) (fun e => clearParamE e true) s2 = Ok s' /\
               mEncoders s' !! i = mEncoders s2 !! i).
  { intros i e He. pose proof (lookup_lt_Some _ _ _ He) as Hlt. fold n in Hlt.
    destruct (clear_loop_safe i (seq 0 i) s) as (s1 & E1 & K1).
    { apply Forall_forall. intros j Hj. apply elem_of_seq in Hj. lia. }
    { apply Forall_forall. intros j Hj. apply elem_of_seq in Hj. fold n. lia. }
    pose proof K1 as (Ke1 & Kl1 & _).
    assert (He1 : mEncoders s1 !! i = Some e) by (rewrite Ke1; exact He).
    pose proof (clearParamE_state s1 i e true He1) as E2.
    set (s2 := mkTwister _ _ _ _ _ _) in E2.
    destruct (clear_loop_safe i (seq (S i) (n - S i)) s2) as (s3 & E3 & K3).
    { apply Forall_forall. intros j Hj. apply elem_of_seq in Hj. lia. }
    { apply Forall_forall. intros j Hj. apply elem_of_seq in Hj.
      subst s2. simpl. rewrite length_insert, Kl1. fold n. lia. }
    assert (Es : s3 = s').
    { unfold clear in E. fold n in E. rewrite (seq_split i n Hlt) in E.
      rewrite forEncoders_app in E. unfold seqM at 1 in E. rewrite E1 in E.
      simpl in E. unfold seqM at 1 in E. rewrite E2 in E. rewrite E3 in E.
      inversion E. reflexivity. }
    subst s3. exists s1, s2. destruct K3 as (Ke3 & _). auto. }
  split.
  - intros i e He. destruct (Hsplit i e He) as (s1 & s2 & E1 & He1 & E2 & E3 & Ke).
    rewrite Ke. rewrite (clearParamE_state s1 i e true He1) in E2. inversion E2. simpl.
    eapply lookup_insert_same. exact He1.
  - intros i e He. destruct (Hsplit i e He) as (s1 & s2 & E1 & He1 & E2 & E3 & Ke).
    apply clear_loop_within in E3.
    rewrite (clearParamE_state s1 i e true He1) in E2. inversion E2 as [Hs2].
    rewrite <- Hs2 in E3. simpl in E3.
    split; (eapply released_within; [|exact E3]).
    + eapply released_within; [apply release_released | apply release_within].
    + apply release_released.
Qed.

(** *** The wire, both ways *)

(** A rotary message for a slot of the array with a binding on it. *)
Lemma update_msg_slot (s : Twister) (i : nat) (e : Encoder) (h : RotaryHandler)
      (old : ParamValue) (ev : list (nat * Listener)) (x : Z) :
  wf s = true ->
  mEncoders s !! i = Some e ->
  rotaryEnabled e = true ->
  updateRotaryParam e = Some h ->
  params s !! handler_param h = Some (mkParam old ev) ->
  let p := handler_param h in
  let w := handler_value h (highRezVal x (mHighResVelLowByte s)) old in
  exists fs,
    update_msg (mkMsg 0xB0 (Z.of_nat i) x) s
    = Ok (set_mHighResVelLowByte 0
            (log (ParamSet p w :: map Sent fs)
               (set_params (<[p := mkParam w ev]> (params s)) s))).
Proof.
  intros Hwf He Hrot Hh Hp p w.
  assert (Hok : rotaryHandler_ok (params s) h = true).
  { pose proof (wf_encoder_ok s _ e Hwf He) as Hok. unfold encoder_ok in Hok.
    rewrite Hh in Hok. apply andb_prop in Hok. apply Hok. }
  destruct (callRotaryHandler_spec s h old ev x (mHighResVelLowByte s) Hwf Hok Hp)
    as (fs & Hcall & _).
  exists fs.
  destruct (wf_parts s Hwf) as (Hlen & _ & _).
  pose proof (lookup_lt_Some _ _ _ He) as Hlt. rewrite Hlen in Hlt.
  unfold update_msg.
  change (getCommand (mkMsg 0xB0 (Z.of_nat i) x)) with 11.
  change (getChannel (mkMsg 0xB0 (Z.of_nat i) x)) with 0.
  cbn [controller value]. simpl (11 =? 11). simpl (0 =? 0). cbv iota.
  destruct (Z.eqb_spec (Z.of_nat i) 88); [lia|].
  rewrite uint8_small by lia. rewrite Nat2Z.id, Hlen.
  destruct (Nat.ltb_spec i 16); [|lia].
  rewrite He, Hrot, Hh, Hcall. reflexivity.
Qed.

Lemma highRezVal_low (x y : Z) : highRezVal x (Z.land y 0x7F) = highRezVal x y.
Proof.
  unfold highRezVal. rewrite <- Z.land_assoc. reflexivity.
Qed.

(** X19. The two frames [setRotaryValue(v)] sends for a value of [0, 16383],
    received back from the device and routed by [update()], make the handler
    of the same slot rebuild exactly [v]: one parameter write, with [v]
    rescaled, and the pending low byte back at 0. *)
Theorem echo_roundtrip (s : Twister) (i : nat) (e : Encoder) (h : RotaryHandler) (v : Z) :
  wf s = true ->
  mChannelMidiIn s = [] ->
  mEncoders s !! i = Some e ->
  pos e = Z.of_nat i ->
  mMidiOut e = true ->
  rotaryEnabled e = true ->
  updateRotaryParam e = Some h ->
  0 <= v <= 16383 ->
  exists old s1 tr,
    pval <$> params s !! handler_param h = Some old /\
    update (fold_left (fun st f => _midi_callback f st) (setRotaryValue v e) s) = Ok s1 /\
    trace s1 = trace s ++ tr /\
    writes tr = [ParamSet (handler_param h) (handler_value h v old)] /\
    mHighResVelLowByte s1 = 0.
Proof.
  intros Hwf Hq He Hpos Hout Hrot Hh Hv.
  destruct (wf_handler_param s _ e h Hwf He Hh) as (old & ev & Hp).
  unfold setRotaryValue, sendToRotary. rewrite Hrot, Hout, Hpos. simpl fold_left.
  set (sa := set_mHighResVelLowByte (Z.land (lsb_of v) 0x7F) (set_mChannelMidiIn [] s)).
  destruct (update_msg_slot sa i e h old ev (msb_of v)) as (fs & Hu); try assumption.
  cbv zeta in Hu.
  change (mHighResVelLowByte sa) with (Z.land (lsb_of v) 0x7F) in Hu.
  rewrite highRezVal_low, highRezVal_split in Hu.
  replace (Z.land v 0x3FFF) with v in Hu.
  2:{ change 0x3FFF with (Z.ones 14). rewrite Z.land_ones by lia.
      symmetry. apply Z.mod_small. change (2 ^ 14) with 16384. lia. }
  exists old. eexists.
  exists (ParamSet (handler_param h) (handler_value h v old) :: map Sent fs).
  split. { rewrite Hp. reflexivity. }
  split.
  { apply (update_two _ (mkMsg 0xB0 0x58 (lsb_of v)) (mkMsg 0xB0 (Z.of_nat i) (msb_of v))
             (set_mHighResVelLowByte (Z.land (lsb_of v) 0x7F)
                (set_mChannelMidiIn [mkMsg 0xB0 (Z.of_nat i) (msb_of v)] s))).
    - simpl. rewrite Hq. reflexivity.
    - reflexivity.
    - exact Hu. }
  split; [reflexivity|].
  split; [apply writes_set | reflexivity].
Qed.

(** X20. A parameter write that comes from the hardware is pushed back to the
    hardware: with one rotary binding on a float parameter, a rotary message
    for the slot writes the parameter, and the function the binding
    registered sends the written value, rescaled again, as a prefix frame and
    a value frame.  Nothing suppresses this echo. *)
Theorem feedback_push (s : Twister) (i : nat) (e : Encoder) (p : ParamId)
        (v0 a b mn mx : float) (id : nat) (x : Z) :
  length (mEncoders s) = 16%nat ->
  mEncoders s !! i = Some e ->
  mMidiOut e = true ->
  rotaryEnabled e = true ->
  updateRotaryParam e = Some (RotaryFloatH p mn mx) ->
  params s !! p = Some (mkParam (PFloat v0 a b) [(id, RotaryFloatL i mn mx)]) ->
  let y := ofMap_hw_to_float (highRezVal x (mHighResVelLowByte s)) mn mx in
  let hw := uint16 (ofMap_float_to_hw y mn mx) in
  update_msg (mkMsg 0xB0 (Z.of_nat i) x) s
  = Ok (set_mHighResVelLowByte 0
          (log [ParamSet p (PFloat y a b);
                Sent [0xB0; 0x58; Z.land hw 0x7F];
                Sent [0xB0; pos e; Z.land (Z.shiftr hw 7) 0x7F]]
             (set_params
                (<[p := mkParam (PFloat y a b) [(id, RotaryFloatL i mn mx)]]> (params s)) s))).
Proof.
  intros Hlen He Hout Hrot Hh Hp y hw.
  pose proof (lookup_lt_Some _ _ _ He) as Hlt. rewrite Hlen in Hlt.
  unfold update_msg.
  change (getCommand (mkMsg 0xB0 (Z.of_nat i) x)) with 11.
  change (getChannel (mkMsg 0xB0 (Z.of_nat i) x)) with 0.
  cbn [controller value]. simpl (11 =? 11). simpl (0 =? 0). cbv iota.
  destruct (Z.eqb_spec (Z.of_nat i) 88); [lia|].
  rewrite uint8_small by lia. rewrite Nat2Z.id, Hlen.
  destruct (Nat.ltb_spec i 16); [|lia].
  rewrite He, Hrot, Hh.
  unfold callRotaryHandler, ofParameter_set_float. rewrite Hp.
  unfold store, notify, runListener. cbn [mEncoders log set_params].
  rewrite He. fold y. unfold setRotaryValue, sendToRotary. rewrite Hrot, Hout.
  cbn [negb]. rewrite msb_of_eq, lsb_of_eq. fold hw.
  unfold skip. rewrite log_log. reflexivity.
Qed.

(** *** Without an output *)


Lemma frames_sent (fs : list Frame) : frames (map Sent fs) = fs.
Proof. induction fs as [|f fs IH]; simpl; [reflexivity | f_equal; exact IH]. Qed.


















(** *** [setParams]: one slot of the group *)

Lemma setParams_body_some (s : Twister) (i : nat) (e : Encoder) (p : ParamId)
      (pv : ParamValue) (ev : list (nat * Listener)) :
  mEncoders s !! i = Some e ->
  params s !! p = Some (mkParam pv ev) ->
  exists s2,
    setParams_body i (Some p) s = Ok s2 /\
    mEncoders s2 = <[i := slot_after p pv (p, nextToken s) e]> (mEncoders s) /\
    pval <$> params s2 = pval <$> params s.
Proof.
  intros He Hp. simpl. rewrite Hp. destruct pv as [v mn mx | v mn mx | b |].
  - rewrite (setParamE_float_state s i e p v mn mx ev He Hp).
    eexists. split; [reflexivity|]. simpl. split; [reflexivity|].
    rewrite pval_release, pval_subscribed. reflexivity.
  - rewrite (setParamE_int_state s i e p v mn mx ev He Hp).
    eexists. split; [reflexivity|]. simpl. split; [reflexivity|].
    rewrite pval_release, pval_subscribed. reflexivity.
  - rewrite (setParamE_bool_state s i e p b ev He Hp).
    eexists. split; [reflexivity|]. simpl. split; [reflexivity|].
    rewrite pval_release, pval_subscribed. reflexivity.
  - rewrite (clearParamE_state s i e false He).
    eexists. split; [reflexivity|]. simpl. split; [reflexivity|].
    apply pval_release2.
Qed.

(** X23. What [setParams] does to a slot depends on the parameter at the
    slot's place in the group only, whatever the other slots get: a float or
    an int parameter binds the rotary of the slot, a bool parameter its
    switch, a parameter of another type clears the slot. *)
Theorem setParams_slot (s : Twister) (group : list ParamId) (i : nat) (e : Encoder)
        (p : ParamId) (pv : ParamValue) (ev : list (nat * Listener)) :
  Forall (fun q => (q < length (params s))%nat) group ->
  mEncoders s !! i = Some e ->
  group !! i = Some p ->
  params s !! p = Some (mkParam pv ev) ->
  exists s' t,
    setParams group s = Ok s' /\
    mEncoders s' !! i = Some (slot_after p pv t e).
Proof.
  intros Hgroup He Hi Hp.
  pose proof (lookup_lt_Some _ _ _ He) as Hlt.
  destruct (setParams_loop_safe i (seq 0 i) group s) as (s1 & E1 & K1).
  { apply Forall_forall. intros j Hj. apply elem_of_seq in Hj. lia. }
  { apply Forall_forall. intros j Hj. apply elem_of_seq in Hj. lia. }
  { exact Hgroup. }
  pose proof K1 as (Ke1 & Kl1 & Kp1).
  pose proof (others_kept_params_length _ _ _ K1) as Pl1.
  assert (He1 : mEncoders s1 !! i = Some e) by (rewrite Ke1; exact He).
  assert (Hp1 : exists ev1, params s1 !! p = Some (mkParam pv ev1)).
  { pose proof (pval_lookup _ _ p Kp1) as H. rewrite Hp in H.
    destruct (params s1 !! p) as [[pv1 ev1]|]; [|discriminate].
    simpl in H. inversion H. subst. eauto. }
  destruct Hp1 as [ev1 Hp1].
  destruct (setParams_body_some s1 i e p pv ev1 He1 Hp1) as (s2 & E2 & M2 & P2).
  destruct (setParams_loop_safe i (seq (S i) (length (mEncoders s) - S i))
              (drop (S i) group) s2) as (s' & E3 & K3).
  { apply Forall_forall. intros j Hj. apply elem_of_seq in Hj. lia. }
  { apply Forall_forall. intros j Hj. apply elem_of_seq in Hj.
    rewrite M2, length_insert, Kl1. lia. }
  { rewrite (pval_length _ _ P2), Pl1. apply Forall_drop. exact Hgroup. }
  exists s', (p, nextToken s1). split.
  - unfold setParams. rewrite (seq_split i _ Hlt), setParams_loop_app.
    unfold seqM at 1. rewrite E1. rewrite length_seq.
    rewrite (drop_S _ _ _ Hi).
    change (setParams_loop (i :: ?l) (p :: ?it))
      with (seqM (setParams_body i (Some p)) (setParams_loop l it)).
    unfold seqM. rewrite E2. exact E3.
  - destruct K3 as (Ke3 & _). rewrite Ke3, M2.
    eapply lookup_insert_same. exact He1.
Qed.

(** *** Binding a slot again *)

Lemma subscribed_registered (n : nat) (l : Listener) (p : ParamId) (ps : list Param)
      (q : Param) :
  ps !! p = Some q ->
  exists par, alter (subscribed n l) p ps !! p = Some par /\ In (n, l) (pevent par).
Proof.
  intros Hp. rewrite list_lookup_alter_eq, Hp. simpl. eexists. split; [reflexivity|].
  simpl. apply in_or_app. right. left. reflexivity.
Qed.

(** X24. Binding a float parameter to a slot whose rotary was bound before
    moves the subscription: the function of the old subscription is
    registered with no parameter any more, and the new function is
    registered with the new parameter, under the token the encoder now
    holds. *)
Theorem rebind_rotary (s : Twister) (idx : nat) (e : Encoder) (p : ParamId)
        (v mn mx : float) (ev : list (nat * Listener)) :
  mEncoders s !! idx = Some e ->
  params s !! p = Some (mkParam (PFloat v mn mx) ev) ->
  mELRotaryParamChange e <> Some (p, nextToken s) ->
  exists s' e' par,
    setParam_float idx p s = Ok s' /\
    mEncoders s' !! idx = Some e' /\
    mELRotaryParamChange e' = Some (p, nextToken s) /\
    released (mELRotaryParamChange e) (params s') /\
    params s' !! p = Some par /\
    In (nextToken s, RotaryFloatL idx mn mx) (pevent par).
Proof.
  intros He Hp Hfresh.
  assert (Hidx : (idx <? length (mEncoders s))%nat = true).
  { apply Nat.ltb_lt. eapply lookup_lt_Some. exact He. }
  unfold setParam_float. rewrite Hidx.
  rewrite (setParamE_float_state s idx e p v mn mx ev He Hp).
  destruct (subscribed_registered (nextToken s) (RotaryFloatL idx mn mx) p (params s) _ Hp)
    as (par1 & Hq1 & Hin1).
  destruct (release_keeps (mELRotaryParamChange e) _ p par1 _ _ Hq1 Hin1 Hfresh)
    as (par & Hq & Hin).
  eexists. eexists. exists par. split; [reflexivity|]. simpl.
  split; [eapply lookup_insert_same; exact He|].
  split; [reflexivity|].
  split; [apply release_released|].
  split; assumption.
Qed.

(** *** [update()] over several ticks *)

Lemma notify_queue (ev : list (nat * Listener)) (v : ParamValue) (q : list MidiCCMessage) :
  forall s : Twister,
    notify ev v (set_mChannelMidiIn q s) = with_queue q (notify ev v s).
Proof.
  induction ev as [|[id l] ev IH]; intros s; [reflexivity|].
  simpl. destruct (runListener (mEncoders s) v l) as [fs|]; [|reflexivity].
  apply (IH (log (map Sent fs) s)).
Qed.

Lemma store_queue (p : ParamId) (v : ParamValue) (ev : list (nat * Listener))
      (q : list MidiCCMessage) (s : Twister) :
  store p v ev (set_mChannelMidiIn q s) = with_queue q (store p v ev s).
Proof.
  unfold store.
  apply (notify_queue ev v q (log [ParamSet p v] (set_params (<[p := mkParam v ev]> (params s)) s))).
Qed.

Lemma callRotaryHandler_queue (h : RotaryHandler) (a b : Z) (q : list MidiCCMessage)
      (s : Twister) :
  callRotaryHandler h a b (set_mChannelMidiIn q s) = with_queue q (callRotaryHandler h a b s).
Proof.
  destruct h as [p mn mx | p mn mx]; simpl;
    unfold ofParameter_set_float, ofParameter_set_int; simpl;
    destruct (params s !! p) as [[[] ev]|]; try reflexivity; apply store_queue.
Qed.

Lemma callSwitchHandler_queue (h : SwitchHandler) (a b : Z) (q : list MidiCCMessage)
      (s : Twister) :
  callSwitchHandler h a b (set_mChannelMidiIn q s) = with_queue q (callSwitchHandler h a b s).
Proof.
  destruct h as [p]; simpl. unfold ofParameter_set_bool; simpl.
  destruct (params s !! p) as [[[] ev]|]; try reflexivity; apply store_queue.
Qed.

(** The body of the loop does not look at the queue. *)
Lemma update_msg_queue (m : MidiCCMessage) (q : list MidiCCMessage) (s : Twister) :
  update_msg m (set_mChannelMidiIn q s) = with_queue q (update_msg m s).
Proof.
  unfold update_msg. cbn [mEncoders mHighResVelLowByte set_mChannelMidiIn].
  destruct (getCommand m =? 11); [|reflexivity].
  destruct (getChannel m =? 0).
  - destruct (controller m =? 88); [reflexivity|].
    destruct (_ <? _)%nat; [|reflexivity].
    destruct (mEncoders s !! _) as [e|]; [|reflexivity].
    destruct (rotaryEnabled e); [|reflexivity].
    destruct (updateRotaryParam e) as [h|]; [|reflexivity].
    rewrite (callRotaryHandler_queue h (value m) (mHighResVelLowByte s) q s).
    destruct (callRotaryHandler h (value m) (mHighResVelLowByte s) s); reflexivity.
  - destruct (getChannel m =? 1); [|reflexivity].
    destruct (mEncoders s !! _) as [e|]; [|reflexivity].
    destruct (switchEnabled e); [|reflexivity].
    destruct (updateSwitchParam e) as [h|]; [|reflexivity].
    apply (callSwitchHandler_queue h (value m) 0 q s).
Qed.

Lemma update_msg_keeps_queue (m : MidiCCMessage) (s s' : Twister) :
  update_msg m s = Ok s' -> mChannelMidiIn s' = mChannelMidiIn s.
Proof.
  intros H.
  pose proof (update_msg_queue m (mChannelMidiIn s) s) as Hq.
  replace (set_mChannelMidiIn (mChannelMidiIn s) s) with s in Hq by (destruct s; reflexivity).
  rewrite H in Hq. simpl in Hq. inversion Hq as [E]. rewrite E at 1. reflexivity.
Qed.

Lemma drain_queue (q : list MidiCCMessage) :
  forall s s' : Twister,
    drain q s = Ok s' ->
    mChannelMidiIn s' = match q with [] => mChannelMidiIn s | _ => [] end.
Proof.
  induction q as [|m q IH]; intros s s' H.
  - inversion H. reflexivity.
  - simpl in H. unfold seqM in H.
    destruct (update_msg m (set_mChannelMidiIn q s)) as [s1|] eqn:E; [|discriminate].
    apply update_msg_keeps_queue in E. simpl in E.
    apply IH in H. rewrite H, E. destruct q; reflexivity.
Qed.

Lemma drain_app (q1 q2 : list MidiCCMessage) :
  forall s : Twister,
    drain (q1 ++ q2) (set_mChannelMidiIn (q1 ++ q2) s)
    = match drain q1 (set_mChannelMidiIn q1 s) with
      | Ok s1 => drain q2 (set_mChannelMidiIn q2 s1)
      | Fault => Fault
      end.
Proof.
  induction q1 as [|m q1 IH]; intros s; [reflexivity|].
  simpl. unfold seqM.
  change (set_mChannelMidiIn (q1 ++ q2) (set_mChannelMidiIn (m :: q1 ++ q2) s))
    with (set_mChannelMidiIn (q1 ++ q2) s).
  change (set_mChannelMidiIn q1 (set_mChannelMidiIn (m :: q1) s))
    with (set_mChannelMidiIn q1 s).
  rewrite !update_msg_queue.
  destruct (update_msg m s) as [s1|]; [|reflexivity].
  simpl. apply IH.
Qed.

Lemma received_queue (fs : list (list Z)) :
  forall s : Twister,
    received fs s = set_mChannelMidiIn (mChannelMidiIn s ++ decoded fs) s.
Proof.
  unfold received. induction fs as [|f fs IH]; intros s.
  - simpl. rewrite app_nil_r. destruct s; reflexivity.
  - simpl fold_left. rewrite IH.
    destruct f as [|b0 [|b1 [|b2 [|b3 rest]]]]; simpl; try reflexivity.
    unfold set_mChannelMidiIn. simpl. rewrite <- app_assoc. reflexivity.
Qed.

Lemma decoded_app (f1 f2 : list (list Z)) : decoded (f1 ++ f2) = decoded f1 ++ decoded f2.
Proof. unfold decoded. apply flat_map_app. Qed.

(** X25. Where a tick falls between two messages does not matter: starting
    from an empty queue, one [update()] on the messages of two batches does
    what an [update()] on the first batch followed by an [update()] on the
    second does.  In particular a prefix message received in one tick is
    merged with the value message received in the next. *)
Theorem update_two_ticks (s : Twister) (f1 f2 : list (list Z)) :
  mChannelMidiIn s = [] ->
  update (received (f1 ++ f2) s)
  = match update (received f1 s) with
    | Ok s1 => update (received f2 s1)
    | Fault => Fault
    end.
Proof.
  intros Hq. unfold update. rewrite !received_queue, Hq. simpl app.
  cbn [mChannelMidiIn set_mChannelMidiIn]. rewrite decoded_app, drain_app.
  destruct (drain (decoded f1) (set_mChannelMidiIn (decoded f1) s)) as [s1|] eqn:E;
    [|reflexivity].
  apply drain_queue in E. simpl in E.
  assert (Hq1 : mChannelMidiIn s1 = []) by (rewrite E; destruct (decoded f1); reflexivity).
  rewrite received_queue, Hq1. reflexivity.
Qed.

End Theory.

(** ** Concrete runs *)

Lemma highres_roundtrip_witness :
  0 <= 8208 <= 16383 /\ highRezVal (msb_of 8208) (lsb_of 8208) = 8208.
Proof. split; [lia | apply (highres_roundtrip 8208); lia]. Defined.

Lemma setRotaryValue_frames_witness :
  setRotaryValue 8208 (mkEncoder true 5 true false None None None None)
  = [[0xB0; 0x58; 16]; [0xB0; 5; 64]].
Proof.
  apply (setRotaryValue_frames 8208 (mkEncoder true 5 true false None None None None));
    reflexivity.
Defined.

Lemma animation_codes_witness :
  setAnimationRGB 2 STROBE 3 demo = Ok (log [Sent [0xB2; 2; 4]] demo) /\
  setAnimationRotary 2 STROBE 3 demo = Ok (log [Sent [0xB2; 2; 52]] demo) /\
  setAnimationRotary 2 RAINBOW 3 demo = Ok demo.
Proof.
  pose proof (animation_codes demo 2 (mkEncoder true 2 false false None None None None) 3
                eq_refl eq_refl ltac:(lia)) as H.
  repeat split; apply H.
Defined.



Lemma switch_handler_threshold_witness :
  exists s' tr,
    update_msg (mkMsg 0xB1 0 64) demo_bool0 = Ok s' /\
    params s' !! 1%nat = Some (mkParam (PBool true) [(0%nat, SwitchL 0)]) /\
    trace s' = trace demo_bool0 ++ tr /\
    writes tr = [ParamSet 1%nat (PBool true)].
Proof.
  destruct (switch_handler_threshold demo_bool0 0
              (mkEncoder true 0 false true (Some (1%nat, 0%nat)) None
                         (Some (SwitchBoolH 1)) None)
              1 true [(0%nat, SwitchL 0)] 64)
    as (s' & tr & H1 & H2 & H3 & H4 & _); try reflexivity.
  exists s', tr. auto.
Defined.

Lemma routing_scenario_witness :
  let h := @RotaryFloatH QFloat 0 0%Q 1%Q in
  exists old s1 tr1,
    pval <$> params demo_float5 !! handler_param h = Some old /\
    update (_midi_callback [0xB0; 0x05; 0x40] (_midi_callback [0xB0; 0x58; 0x10] demo_float5))
    = Ok s1 /\
    trace s1 = trace demo_float5 ++ tr1 /\
    writes tr1
    = [ParamSet (handler_param h) (handler_value h (Z.lor (Z.shiftl 0x40 7) 0x10) old)] /\
    mHighResVelLowByte s1 = 0 /\
    exists s2 tr2,
      update (_midi_callback [0xB0; 0x05; 0x00] s1) = Ok s2 /\
      trace s2 = trace s1 ++ tr2 /\
      writes tr2 = [ParamSet (handler_param h) (handler_value h 0 old)].
Proof.
  intros h.
  apply (routing_scenario demo_float5
           (mkEncoder true 5 true false None (Some (0%nat, 0%nat)) None (Some h)) h);
    reflexivity.
Defined.

(** For a slot bound to a bool parameter, then to a float parameter, both
    bindings are in place. *)
Lemma float_after_bool_keeps_both :
  exists s' e' par,
    setParam_float 0 0%nat demo_bool0 = Ok s' /\
    mEncoders s' !! 0%nat = Some e' /\
    rotaryEnabled e' = true /\
    switchEnabled e' = true /\
    mELSwitchParamChange e' = Some (1%nat, 0%nat) /\
    updateSwitchParam e' = Some (SwitchBoolH 1) /\
    params s' !! 1%nat = Some par /\
    pevent par = [(0%nat, SwitchL 0)].
Proof.
  eexists. eexists. eexists.
  split; [vm_compute; reflexivity|].
  split; [vm_compute; reflexivity|].
  repeat split; vm_compute; reflexivity.
Defined.

Lemma setParam_float_keeps_switch_binding_witness :
  exists s' e',
    setParam_float 0 0%nat demo_bool0 = Ok s' /\
    mEncoders s' !! 0%nat = Some e' /\
    rotaryEnabled e' = true /\
    switchEnabled e' = true /\
    mELSwitchParamChange e' = Some (1%nat, 0%nat).
Proof.
  destruct (setParam_float_keeps_switch_binding demo_bool0 0
              (mkEncoder true 0 false true (Some (1%nat, 0%nat)) None
                         (Some (SwitchBoolH 1)) None)
              0 (1 # 2)%Q 0%Q 1%Q [])
    as (s' & e' & H1 & H2 & H3 & _ & _ & H6 & _ & H8 & _); try reflexivity.
  exists s', e'. auto.
Defined.

(** A slot whose flags both read [false], given a parameter of another
    type: [setParams] sends no frame for the slot, where a forced clear
    sends the phenotype change twice. *)
Lemma setParams_unmatched_not_forced :
  exists s',
    setParams [3%nat] demo = Ok s' /\
    frames_for 0 (trace s') = [] /\
    exists sf,
      clearParamE 0 true demo = Ok sf /\
      frames_for 0 (trace sf) = [[0xB4; 0; 2]; [0xB4; 0; 2]].
Proof.
  eexists. split; [vm_compute; reflexivity|].
  split; [vm_compute; reflexivity|].
  eexists. split; [vm_compute; reflexivity|]. vm_compute. reflexivity.
Defined.

Lemma setParams_unmatched_slot_witness :
  exists s',
    setParams [3%nat] demo_float0 = Ok s' /\
    mEncoders s' !! 0%nat
    = Some (mkEncoder true 0 false false None None None (Some (@RotaryFloatH QFloat 0 0%Q 1%Q))).
Proof.
  assert (Hg : Forall (fun q => (q < length (params demo_float0))%nat) [3%nat]).
  { constructor; [vm_compute; lia | constructor]. }
  destruct (setParams_unmatched_slot demo_float0 [3%nat] 0
              (mkEncoder true 0 true false None (Some (0%nat, 0%nat)) None
                         (Some (@RotaryFloatH QFloat 0 0%Q 1%Q)))
              3 [] Hg
              ltac:(vm_compute; reflexivity)
              ltac:(vm_compute; reflexivity)
              ltac:(vm_compute; reflexivity))
    as (s1 & s2 & s' & _ & _ & _ & _ & _ & _ & H7 & H8).
  exists s'. split; [exact H7 | exact H8].
Defined.

Lemma command_channel_split_witness :
  0 <= getCommand (mkMsg 0xB1 5 64) < 16 /\
  0 <= getChannel (mkMsg 0xB1 5 64) < 16 /\
  16 * getCommand (mkMsg 0xB1 5 64) + getChannel (mkMsg 0xB1 5 64) = 0xB1.
Proof. apply (command_channel_split (mkMsg 0xB1 5 64)). simpl. lia. Defined.

Lemma update_drains_witness :
  let s := receive [[0xB0; 0x58; 0x10]; [0xB0; 5; 0x40]; [0xB1; 0; 64]; [0x90; 60; 127]]
             demo_float5 in
  exists s',
    update s = Ok s' /\
    mChannelMidiIn s' = [] /\
    mEncoders s' = mEncoders s /\
    wf s' = true.
Proof.
  intros s. apply (update_drains s); vm_compute; reflexivity.
Defined.

Lemma update_ignores_witness :
  let s := receive [[0x90; 60; 127]; [0xB2; 3; 17]; [0xB4; 3; 1]] demo_float5 in
  update s = Ok (set_mChannelMidiIn [] s).
Proof.
  intros s. apply (update_ignores s). vm_compute. reflexivity.
Defined.

Lemma bindings_keep_wf_witness :
  exists s', setParam_float 5 0%nat demo = Ok s' /\ wf s' = true.
Proof.
  destruct (bindings_keep_wf demo 5 0 false ltac:(vm_compute; reflexivity))
    as (Hf & _ & _ & _).
  apply (Hf (1 # 2)%Q 0%Q 1%Q []). vm_compute. reflexivity.
Defined.

Lemma setParams_keeps_wf_witness :
  exists s',
    setParams [0; 1; 2; 3]%nat demo = Ok s' /\
    wf s' = true /\
    pval <$> params s' = pval <$> params demo /\
    mChannelMidiIn s' = mChannelMidiIn demo.
Proof.
  apply (setParams_keeps_wf demo [0; 1; 2; 3]%nat); [vm_compute; reflexivity|].
  repeat constructor.
Defined.

Lemma setParams_then_update_witness :
  let s := receive [[0xB0; 0; 64]; [0xB1; 1; 0]] demo in
  exists s1 s2,
    setParams [0; 1]%nat s = Ok s1 /\
    update s1 = Ok s2 /\
    mChannelMidiIn s2 = [] /\
    mEncoders s2 = mEncoders s1 /\
    wf s2 = true.
Proof.
  intros s. apply (setParams_then_update s [0; 1]%nat);
    [vm_compute; reflexivity | repeat constructor | vm_compute; reflexivity].
Defined.

Lemma slot_out_of_range_witness :
  setParam_float 16 0%nat demo = Ok demo /\
  clearParam 16 true demo = Ok demo /\
  setHueRGB 16 (1 # 2)%Q demo = Ok demo.
Proof.
  destruct (slot_out_of_range demo 16 0 true (1 # 2)%Q STROBE 3 ltac:(vm_compute; lia))
    as (H1 & _ & _ & H4 & H5 & _).
  auto.
Defined.

Lemma setParams_first_sixteen_witness :
  setParams (replicate 16 3 ++ [0])%nat demo = setParams (replicate 16 3)%nat demo.
Proof.
  apply (setParams_first_sixteen demo (replicate 16 3 ++ [0])%nat). reflexivity.
Defined.

Lemma setParam_bool_push_witness :
  exists s',
    setParam_bool 0 1%nat demo = Ok s' /\
    trace s' = trace demo ++ map Sent ([[0xB4; 0; 1]] ++ [[0xB1; 0; 127]]).
Proof.
  apply (setParam_bool_push demo 0 (demo_enc true 0) 1 true []); reflexivity.
Defined.

Lemma setParam_float_push_witness :
  exists s',
    setParam_float 5 0%nat demo = Ok s' /\
    trace s' = trace demo ++ map Sent ([[0xB4; 5; 0]] ++ [[0xB0; 0x58; 127]; [0xB0; 5; 63]]).
Proof.
  destruct (setParam_float_push demo 5 (demo_enc true 5) 0 (1 # 2)%Q 0%Q 1%Q []
              ltac:(vm_compute; reflexivity) ltac:(vm_compute; reflexivity)
              ltac:(vm_compute; reflexivity)) as (s' & H1 & H2).
  exists s'. split; [exact H1|]. rewrite H2. vm_compute. reflexivity.
Defined.

Lemma clear_stops_routing_witness :
  exists s1,
    clearParam 5 false demo_float5 = Ok s1 /\
    mEncoders s1 !! 5%nat = Some (cleared demo_enc5) /\
    updateRotaryParam (cleared demo_enc5) = updateRotaryParam demo_enc5 /\
    updateSwitchParam (cleared demo_enc5) = updateSwitchParam demo_enc5 /\
    forall x,
      update_msg (mkMsg 0xB0 (Z.of_nat 5) x) s1 = Ok (set_mHighResVelLowByte 0 s1) /\
      update_msg (mkMsg 0xB1 (Z.of_nat 5) x) s1 = Ok s1.
Proof.
  apply (clear_stops_routing demo_float5 5 demo_enc5 false); [vm_compute; reflexivity | lia].
Defined.

Lemma bind_unbind_witness :
  exists s1 s2,
    setParam_float 5 0%nat demo = Ok s1 /\
    clearParam 5 false s1 = Ok s2 /\
    params s2 = params demo /\
    mEncoders s2 !! 5%nat
    = Some (mkEncoder true 5 false false None None None (Some (@RotaryFloatH QFloat 0 0%Q 1%Q))).
Proof.
  apply (bind_unbind demo 5 (demo_enc true 5) 0 (1 # 2)%Q 0%Q 1%Q [] false); reflexivity.
Defined.


Lemma echo_roundtrip_witness :
  exists old s1 tr,
    pval <$> params demo_float5 !! 0%nat = Some old /\
    update (receive (setRotaryValue 8208 demo_enc5) demo_float5) = Ok s1 /\
    trace s1 = trace demo_float5 ++ tr /\
    writes tr = [ParamSet 0%nat (handler_value (@RotaryFloatH QFloat 0 0%Q 1%Q) 8208 old)] /\
    mHighResVelLowByte s1 = 0.
Proof.
  apply (echo_roundtrip demo_float5 5 demo_enc5 (@RotaryFloatH QFloat 0 0%Q 1%Q) 8208);
    try (vm_compute; reflexivity). lia.
Defined.

Lemma feedback_push_witness :
  exists s',
    update_msg (mkMsg 0xB0 5 0x40) demo_float5 = Ok s' /\
    frames_for 5 (trace s') = [[0xB4; 5; 0]; [0xB0; 5; 63]; [0xB0; 5; 64]] /\
    frames (trace s')
    = [[0xB4; 5; 0]; [0xB0; 0x58; 127]; [0xB0; 5; 63]; [0xB0; 0x58; 0]; [0xB0; 5; 64]].
Proof.
  pose proof (feedback_push demo_float5 5 demo_enc5 0 (1 # 2)%Q 0%Q 1%Q 0%Q 1%Q 0 0x40
                ltac:(vm_compute; reflexivity) ltac:(vm_compute; reflexivity)
                ltac:(vm_compute; reflexivity) ltac:(vm_compute; reflexivity)
                ltac:(vm_compute; reflexivity) ltac:(vm_compute; reflexivity)) as H.
  cbv zeta in H. eexists. split; [exact H|]. split; vm_compute; reflexivity.
Defined.



Lemma setParams_slot_witness :
  exists s' t,
    setParams [0; 1; 2; 3]%nat demo = Ok s' /\
    mEncoders s' !! 2%nat = Some (slot_after 2 (PInt 5 0 10) t (demo_enc true 2)).
Proof.
  apply (setParams_slot demo [0; 1; 2; 3]%nat 2 (demo_enc true 2) 2 (PInt 5 0 10) []);
    [repeat constructor | reflexivity | reflexivity | reflexivity].
Defined.

Lemma rebind_rotary_witness :
  exists s' e' par,
    setParam_float 5 0%nat demo_float5 = Ok s' /\
    mEncoders s' !! 5%nat = Some e' /\
    mELRotaryParamChange e' = Some (0%nat, nextToken demo_float5) /\
    released (mELRotaryParamChange demo_enc5) (params s') /\
    params s' !! 0%nat = Some par /\
    In (nextToken demo_float5, demo_listener5) (pevent par).
Proof.
  apply (rebind_rotary demo_float5 5 demo_enc5 0 (1 # 2)%Q 0%Q 1%Q [(0%nat, demo_listener5)]);
    [vm_compute; reflexivity | vm_compute; reflexivity | vm_compute; discriminate].
Defined.

Lemma update_two_ticks_witness :
  update (received ([[0xB0; 0x58; 0x10]] ++ [[0xB0; 5; 0x40]]) demo_float5)
  = match update (received [[0xB0; 0x58; 0x10]] demo_float5) with
    | Ok s1 => update (received [[0xB0; 5; 0x40]] s1)
    | Fault => Fault
    end.
Proof.
  apply (update_two_ticks demo_float5 [[0xB0; 0x58; 0x10]] [[0xB0; 5; 0x40]]).
  vm_compute. reflexivity.
Defined.
